(** * cdxj_to_zipnum: chunking, shard packing and index emission

    A shallow embedding of [cdxj_to_zipnum.py] and the properties of its
    chunk-to-shard packing, its index and location records and its key
    extractor.

    Conventions of the embedding.
    - Python [bytes] are [list byte]; Python [str] is a list of Unicode code
      points ([text]); Python [int] is [Z] (or [nat] for list indices and
      shard numbers, which never go below 0).
    - [gzip.compress] is a parameter of the development.
    - File objects are modelled by what was written through them.
    - [cdxj_to_zipnum] and [main] take the input as the bytes it gives once
      it is open; [main_io] is the run from the command line on, where the
      output directory and the input may fail to open. *)

From Stdlib Require Import Ascii String.
From Stdlib Require Import List ZArith NArith Lia Bool Sorted.
From Stdlib.Strings Require Import Byte.
From Stdlib Require Decimal DecimalString DecimalNat DecimalZ.
Import ListNotations.

Set Implicit Arguments.

(** ** Python [str] as a list of code points *)

Module Str.

Definition text := list N.

(** A string literal of the source. *)
Definition lit (s : string) : text := map N_of_ascii (list_ascii_of_string s).

Definition eqb (a b : text) : bool :=
  if list_eq_dec N.eq_dec a b then true else false.

(** [s.startswith(p)] *)
Fixpoint startswith (s p : text) : bool :=
  match p, s with
  | [], _ => true
  | _ :: _, [] => false
  | c :: p', d :: s' => N.eqb c d && startswith s' p'
  end.

(** [s.endswith(p)] *)
Definition endswith (s p : text) : bool := startswith (rev s) (rev p).

(** [s.find(c)] for a one-character [c]: index of the first occurrence,
    [-1] when there is none. *)
Fixpoint find_from (c : N) (s : text) (i : Z) : Z :=
  match s with
  | [] => (-1)%Z
  | d :: s' => if N.eqb d c then i else find_from c s' (i + 1)%Z
  end.

Definition find (s : text) (c : N) : Z := find_from c s 0%Z.

(** [s.rfind(c)]: index of the last occurrence, [-1] when there is none. *)
Fixpoint rfind_from (c : N) (s : text) (i : Z) (last : Z) : Z :=
  match s with
  | [] => last
  | d :: s' => rfind_from c s' (i + 1)%Z (if N.eqb d c then i else last)
  end.

Definition rfind (s : text) (c : N) : Z := rfind_from c s 0%Z (-1)%Z.

(** [s[:i]] and [s[i:]] for [i >= 0]. *)
Definition slice_to (s : text) (i : Z) : text := firstn (Z.to_nat i) s.
Definition slice_from (s : text) (i : Z) : text := skipn (Z.to_nat i) s.

Fixpoint dropwhile (p : N -> bool) (s : text) : text :=
  match s with
  | [] => []
  | c :: s' => if p c then dropwhile p s' else s
  end.

(** [s.rstrip(chars)]: drop every trailing character that is in [chars]. *)
Definition rstrip_chars (s chars : text) : text :=
  rev (dropwhile (fun c => existsb (N.eqb c) chars) (rev s)).

(** The characters [str.strip()] removes: the code points for which
    [str.isspace] holds. *)
Definition isspace (c : N) : bool :=
  ((9 <=? c) && (c <=? 13) || (28 <=? c) && (c <=? 32)
   || (c =? 133) || (c =? 160) || (c =? 5760)
   || (8192 <=? c) && (c <=? 8202)
   || (c =? 8232) || (c =? 8233) || (c =? 8239) || (c =? 8287)
   || (c =? 12288))%N.

Definition lstrip (s : text) : text := dropwhile isspace s.
Definition rstrip (s : text) : text := rev (dropwhile isspace (rev s)).

(** [s.strip()] *)
Definition strip (s : text) : text := rstrip (lstrip s).

(** [s.replace(old, '')] for a non-empty [old]: the occurrences of [old]
    are removed left to right, without overlap.  [skip] counts the
    characters of a match that are still to be dropped. *)
Fixpoint remove_from (old : text) (skip : nat) (s : text) : text :=
  match s with
  | [] => []
  | c :: s' =>
      match skip with
      | S k => remove_from old k s'
      | O => if startswith s old
             then remove_from old (length old - 1) s'
             else c :: remove_from old 0 s'
      end
  end.

Definition remove_all (s old : text) : text := remove_from old 0 s.

(** [str(n)] for an integer. *)
Definition of_Z (z : Z) : text :=
  lit (DecimalString.NilZero.string_of_int (Z.to_int z)).

Definition of_nat (n : nat) : text :=
  lit (DecimalString.NilZero.string_of_uint (Nat.to_uint n)).

(** [f"{n:02d}"] for [n >= 0]: decimal, zero-padded on the left to two
    digits. *)
Definition of_nat_02d (n : nat) : text :=
  let d := of_nat n in
  repeat 48%N (2 - length d) ++ d.

(** [bytes.decode('utf-8', errors='replace')].  An ill-formed sequence is
    replaced by U+FFFD: an invalid start byte alone, and otherwise the
    longest prefix of the sequence that is still well formed; decoding
    resumes at the byte that broke it.  A sequence cut by the end of the
    input gives one U+FFFD. *)
Definition FFFD : N := 65533%N.

Definition is_cont (b : N) : bool := ((128 <=? b) && (b <=? 191))%N.

(** The second byte of a three- or four-byte sequence has a range that
    depends on the first (no overlong forms, no surrogates, nothing above
    U+10FFFF). *)
Definition second_ok (b0 b1 : N) : bool :=
  (if b0 =? 224 then (160 <=? b1) && (b1 <=? 191)
   else if b0 =? 237 then (128 <=? b1) && (b1 <=? 159)
   else if b0 =? 240 then (144 <=? b1) && (b1 <=? 191)
   else if b0 =? 244 then (128 <=? b1) && (b1 <=? 143)
   else is_cont b1)%N.

Definition low6 (b : N) : N := N.land b 63.

Fixpoint decode_codes (bs : list N) : text :=
  match bs with
  | [] => []
  | b0 :: r0 =>
      if (b0 <? 128)%N then b0 :: decode_codes r0
      else if ((194 <=? b0) && (b0 <=? 223))%N then
        match r0 with
        | [] => [FFFD]
        | b1 :: r1 =>
            if is_cont b1
            then (N.shiftl (N.land b0 31) 6 + low6 b1)%N :: decode_codes r1
            else FFFD :: decode_codes r0
        end
      else if ((224 <=? b0) && (b0 <=? 239))%N then
        match r0 with
        | [] => [FFFD]
        | b1 :: r1 =>
            if second_ok b0 b1 then
              match r1 with
              | [] => [FFFD]
              | b2 :: r2 =>
                  if is_cont b2
                  then (N.shiftl (N.land b0 15) 12 + N.shiftl (low6 b1) 6
                        + low6 b2)%N :: decode_codes r2
                  else FFFD :: decode_codes r1
              end
            else FFFD :: decode_codes r0
        end
      else if ((240 <=? b0) && (b0 <=? 244))%N then
        match r0 with
        | [] => [FFFD]
        | b1 :: r1 =>
            if second_ok b0 b1 then
              match r1 with
              | [] => [FFFD]
              | b2 :: r2 =>
                  if is_cont b2 then
                    match r2 with
                    | [] => [FFFD]
                    | b3 :: r3 =>
                        if is_cont b3
                        then (N.shiftl (N.land b0 7) 18
                              + N.shiftl (low6 b1) 12
                              + N.shiftl (low6 b2) 6 + low6 b3)%N
                             :: decode_codes r3
                        else FFFD :: decode_codes r2
                    end
                  else FFFD :: decode_codes r1
              end
            else FFFD :: decode_codes r0
        end
      else FFFD :: decode_codes r0
  end.

Definition decode (bs : list byte) : text := decode_codes (map Byte.to_N bs).

End Str.

Import Str.

(** ** Key extractor *)

Definition CR : N := 13%N.
Definition LF : N := 10%N.
Definition LBRACE : N := 123%N.

(** [extract_prejson(line_bytes)] *)
Definition extract_prejson (line_bytes : list byte) : text :=
  let line := rstrip_chars (decode line_bytes) [CR; LF] in
  let idx := find line LBRACE in
  if negb (idx =? -1)%Z then strip (slice_to line idx)
  else strip line.

Definition bytes_of (s : string) : list byte := list_byte_of_string s.

(** ** Errors *)

(** The exceptions the modelled code can raise.  [cdxj_to_zipnum] and
    [main] below take the input as the bytes it gives once it is open, so
    only the first two occur in them; the last three are raised where the
    output directory is made and the input is opened and read
    ([ensure_dir], [open_input_path], [main_io]).  A failing write to an
    output file is not modelled. *)
Inductive exn : Type :=
| IndexError      (* a list index out of range *)
| SystemExit      (* argparse rejects the command line *)
| OSError         (* a file or directory cannot be opened or made;
                     gzip.BadGzipFile is one *)
| EOFError        (* gzip input that ends before its end-of-stream mark *)
| ZlibError.      (* zlib.error: gzip input with damaged compressed data *)

Inductive result (A : Type) : Type :=
| Ok (a : A)
| Raise (e : exn).

Arguments Ok {A} a.
Arguments Raise {A} e.

Definition bind {A B : Type} (r : result A) (k : A -> result B) : result B :=
  match r with
  | Ok a => k a
  | Raise e => Raise e
  end.

Declare Scope result_scope.
Delimit Scope result_scope with result.
Notation "x <- r ;; k" := (bind r (fun x => k))
  (at level 61, r at next level, right associativity) : result_scope.
Notation "' p <- r ;; k" := (bind r (fun p => k))
  (at level 61, p pattern, r at next level, right associativity) : result_scope.

(** [l[i]] for [i >= 0]. *)
Definition index {A : Type} (l : list A) (i : nat) : result A :=
  match nth_error l i with
  | Some a => Ok a
  | None => Raise IndexError
  end.

(** ** [os.path] (POSIX) *)

Definition SEP : N := 47%N.

(** [os.path.join(a, b)] *)
Definition path_join (a b : text) : text :=
  if startswith b [SEP] then b
  else if orb (match a with [] => true | _ => false end) (endswith a [SEP])
       then a ++ b
       else a ++ [SEP] ++ b.

(** [os.path.basename(p)] *)
Definition basename (p : text) : text := slice_from p (rfind p SEP + 1).

(** ** Reading the input *)

Definition bytes := list byte.

Definition NL : byte := x0a.

(** [for line in fh] on a binary stream: the stream cut after every
    newline byte; the last line has no newline when the stream does not end
    with one.  [cur] holds the bytes of the line being read, last first. *)
Fixpoint read_lines_from (cur : bytes) (s : bytes) : list bytes :=
  match s with
  | [] => match cur with [] => [] | _ :: _ => [rev cur] end
  | b :: s' =>
      if Byte.eqb b NL then rev (b :: cur) :: read_lines_from [] s'
      else read_lines_from (b :: cur) s'
  end.

Definition read_lines (s : bytes) : list bytes := read_lines_from [] s.

(** ** Chunk assembler *)

(** The loop of [stream_chunks_from_input] over the lines still to be read;
    the result is the sequence of the pairs it yields. *)
Fixpoint stream_chunks_loop (chunk_size : Z) (chunk : list bytes)
    (chunk_idx : Z) (lines : list bytes) : list (Z * list bytes) :=
  match lines with
  | [] => match chunk with [] => [] | _ :: _ => [(chunk_idx, chunk)] end
  | line :: rest =>
      let chunk := chunk ++ [line] in
      if (Z.of_nat (length chunk) >=? chunk_size)%Z
      then (chunk_idx, chunk)
           :: stream_chunks_loop chunk_size [] (chunk_idx + 1)%Z rest
      else stream_chunks_loop chunk_size chunk chunk_idx rest
  end.

(** [stream_chunks_from_input(input_path, chunk_size)], on the bytes the
    opened input gives. *)
Definition stream_chunks_from_input (input : bytes) (chunk_size : Z)
  : list (Z * list bytes) :=
  stream_chunks_loop chunk_size [] 0%Z (read_lines input).

(** ** Shard files *)

(** A file opened with ['wb']: its path and the bytes written so far. *)
Record file : Type := mkFile { f_path : text; f_data : bytes }.

Definition open_wb (path : text) : file := mkFile path [].
Definition tell (fh : file) : Z := Z.of_nat (length (f_data fh)).
Definition write (fh : file) (data : bytes) : file :=
  mkFile (f_path fh) (f_data fh ++ data).

(** [os.rename(src, dst)] on the files written. *)
Definition rename (src dst : text) (files : list file) : list file :=
  map (fun f => if Str.eqb (f_path f) src then mkFile dst (f_data f) else f)
      files.

(** The shard size, an [int] or [float('inf')]. *)
Inductive size : Type :=
| Int (z : Z)
| Inf.

(** [shard_size_mb * 1024 * 1024] *)
Definition target_of (shard_size_mb : size) : size :=
  match shard_size_mb with
  | Int z => Int (z * 1024 * 1024)%Z
  | Inf => Inf
  end.

(** [end_offset >= target_shard_size] *)
Definition reached (end_offset : Z) (target_shard_size : size) : bool :=
  match target_shard_size with
  | Int t => (end_offset >=? t)%Z
  | Inf => false
  end.

(** ** Index and location records *)

(** The five values of an index line. *)
Record idx_entry : Type := mkEntry {
  e_pre : text;             (* key *)
  e_shard_name : text;      (* shard name, no extension *)
  e_start_offset : Z;
  e_comp_len : Z;
  e_shard_number : nat      (* current_shard + 1 *)
}.

Definition TAB : N := 9%N.
Definition EOL : N := 10%N.

(** [f"{pre}\t{shard_name_no_ext}\t{start_offset}\t{comp_len}\t{current_shard + 1}\n"] *)
Definition format_idx (e : idx_entry) : text :=
  e_pre e ++ [TAB] ++ e_shard_name e ++ [TAB] ++ of_Z (e_start_offset e)
  ++ [TAB] ++ of_Z (e_comp_len e) ++ [TAB] ++ of_nat (e_shard_number e)
  ++ [EOL].

Definition CDX_GZ : text := lit ".cdx.gz".

(** The two values of a location line for a shard path. *)
Definition loc_record (path : text) : text * text :=
  let basename := basename path in
  let shard_name := remove_all basename CDX_GZ in
  (shard_name, basename).

(** [f"{shard_name}\t{basename}\n"] *)
Definition format_loc (r : text * text) : text :=
  fst r ++ [TAB] ++ snd r ++ [EOL].

(** ** The conversion *)

Section Zipnum.

(** [gzip.compress(data, compresslevel=level)]: one gzip member.  The
    time stamp gzip puts in the member header is not modelled; nothing
    below asks two calls to agree. *)
Variable gzip_compress : bytes -> Z -> bytes.

(** [os.path.abspath], which depends on the working directory of the
    process. *)
Variable abspath : text -> text.

(** The arguments of [cdxj_to_zipnum]; [input] is the content the opened
    input gives. *)
Record params : Type := mkParams {
  output_dir : text;
  input : bytes;
  shard_size_mb : size;
  chunk_size : Z;
  base : option text;
  idx_name : option text;
  loc_name : option text;
  compress_level : Z
}.

(** [base] once its default is resolved. *)
Definition base_of (p : params) : text :=
  match base p with
  | Some b => b
  | None =>
      match basename (abspath (output_dir p)) with
      | [] => lit "zipnum-output"
      | b => b
      end
  end.

(** [get_shard_path(shard_num, is_single)] *)
Definition get_shard_path (output_dir base : text) (shard_num : nat)
    (is_single : bool) : text :=
  if is_single
  then path_join output_dir (base ++ CDX_GZ)
  else path_join output_dir
         (base ++ lit "-" ++ of_nat_02d (shard_num + 1) ++ CDX_GZ).

(** The variables the main loop updates.  [closed] holds the shard files
    closed so far, in the order they were opened. *)
Record state : Type := mkState {
  created_shards : list text;
  current_shard : nat;
  current_raw_fh : file;
  closed : list file;
  idx_buffer : list text;
  idxf : text
}.

Definition idx_buffer_size : nat := 100.

(** One iteration of the loop over the chunks.  Next to the new state it
    gives the five values it formats into the index line. *)
Definition loop_body (output_dir base : text) (target_shard_size : size)
    (compress_level : Z) (st : state) (chunk_lines : list bytes)
  : result (idx_entry * state) :=
  (let start_offset := tell (current_raw_fh st) in
   let chunk_data := concat chunk_lines in
   let compressed_chunk := gzip_compress chunk_data compress_level in
   let fh := write (current_raw_fh st) compressed_chunk in
   let end_offset := tell fh in
   let comp_len := (end_offset - start_offset)%Z in
   first <- index chunk_lines 0 ;;
   let pre := extract_prejson first in
   shard_path <- index (created_shards st) (current_shard st) ;;
   let shard_basename := basename shard_path in
   let shard_name_no_ext := remove_all shard_basename CDX_GZ in
   let entry :=
     mkEntry pre shard_name_no_ext start_offset comp_len
             (current_shard st + 1) in
   let buf := idx_buffer st ++ [format_idx entry] in
   let '(idxf1, buf1) :=
     if idx_buffer_size <=? length buf
     then (idxf st ++ concat buf, [])
     else (idxf st, buf) in
   if reached end_offset target_shard_size then
     let '(idxf2, buf2) :=
       match buf1 with
       | [] => (idxf1, buf1)
       | _ :: _ => (idxf1 ++ concat buf1, [])
       end in
     let current_shard' := current_shard st + 1 in
     let shard_path' := get_shard_path output_dir base current_shard' false in
     Ok (entry,
         mkState (created_shards st ++ [shard_path']) current_shard'
                 (open_wb shard_path') (closed st ++ [fh]) buf2 idxf2)
   else
     Ok (entry,
         mkState (created_shards st) (current_shard st) fh (closed st)
                 buf1 idxf1))%result.

(** The loop over the chunks the generator yields. *)
Fixpoint run_loop (output_dir base : text) (target_shard_size : size)
    (compress_level : Z) (st : state) (chunks : list (Z * list bytes))
  : result (list idx_entry * state) :=
  match chunks with
  | [] => Ok ([], st)
  | (_, chunk_lines) :: rest =>
      ('(entry, st1) <-
         loop_body output_dir base target_shard_size compress_level st
                   chunk_lines ;;
       '(entries, st2) <-
         run_loop output_dir base target_shard_size compress_level st1 rest ;;
       Ok (entry :: entries, st2))%result
  end.

(** The state when the loop is entered: the first shard is open and
    listed, nothing is written. *)
Definition init_state (output_dir base : text) : state :=
  let shard_path := get_shard_path output_dir base 0 false in
  mkState [shard_path] 0 (open_wb shard_path) [] [] [].

(** What a run leaves: the shard files in the order they were opened, the
    shard list, the index file and the location file.  [out_entries] lists
    the values of the index lines in the order the loop formatted them. *)
Record output : Type := mkOutput {
  out_shards : list file;
  out_created_shards : list text;
  out_idx_name : text;
  out_idx : text;
  out_loc_name : text;
  out_loc : text;
  out_entries : list idx_entry
}.

(** [cdxj_to_zipnum(output_dir, input_path, shard_size_mb, chunk_size, base,
    idx_name, loc_name, compress_level)] *)
Definition cdxj_to_zipnum (p : params) : result output :=
  (let output_dir := output_dir p in
   let base := base_of p in
   let idx_name :=
     match idx_name p with
     | None => path_join output_dir (base ++ lit ".idx")
     | Some n => path_join output_dir n
     end in
   let chunk_generator := stream_chunks_from_input (input p) (chunk_size p) in
   let target_shard_size := target_of (shard_size_mb p) in
   '(entries, st) <-
     run_loop output_dir base target_shard_size (compress_level p)
              (init_state output_dir base) chunk_generator ;;
   let idxf :=
     match idx_buffer st with
     | [] => idxf st
     | _ :: _ => idxf st ++ concat (idx_buffer st)
     end in
   let files := closed st ++ [current_raw_fh st] in
   let '(created_shards, files) :=
     match created_shards st with
     | [shard0] =>
         if negb (endswith shard0 (base ++ CDX_GZ)) then
           let simple_name := get_shard_path output_dir base 0 true in
           ([simple_name], rename shard0 simple_name files)
         else (created_shards st, files)
     | _ => (created_shards st, files)
     end in
   let loc_name :=
     match loc_name p with
     | None => path_join output_dir (base ++ lit ".loc")
     | Some n => path_join output_dir n
     end in
   let locf := concat (map (fun path => format_loc (loc_record path))
                           created_shards) in
   Ok (mkOutput files created_shards idx_name idxf loc_name locf entries)
  )%result.

(** ** Command line *)

(** The values [parse_args] gives, the integers already converted;
    [a_input] is the content of the input that [-i] names. *)
Record args : Type := mkArgs {
  a_input : bytes;
  a_output : text;
  a_shard_size : Z;
  a_single_shard : bool;
  a_chunk_size : Z;
  a_compress_level : Z;
  a_base : option text;
  a_idx_file : option text;
  a_loc_file : option text
}.

(** [parse_args]: of the values, only the compression level is checked
    ([choices=range(1, 10)]). *)
Definition parse_args (a : args) : result args :=
  if ((1 <=? a_compress_level a) && (a_compress_level a <? 10))%Z
  then Ok a
  else Raise SystemExit.

(** [main] *)
Definition main (argv : args) : result output :=
  (a <- parse_args argv ;;
   let shard_size :=
     if a_single_shard a then Inf else Int (a_shard_size a) in
   cdxj_to_zipnum
     (mkParams (a_output a) (a_input a) shard_size (a_chunk_size a)
               (a_base a) (a_idx_file a) (a_loc_file a)
               (a_compress_level a)))%result.

(** ** The input and the output directory *)

(** What reading a file through [gzip.open] gives: the decompressed bytes,
    or the exception of the [gzip] module. *)
Inductive gzip_read : Type :=
| Decompressed (data : bytes)
| BadGzipFile      (* not a gzip file: an OSError *)
| Truncated        (* EOFError *)
| Corrupt.         (* zlib.error *)

(** What a run finds outside itself: the bytes on standard input, the
    files that can be opened for reading with their bytes ([None]: [open]
    raises), what [gzip] reads from given bytes, and the paths that are
    directories or that [os.makedirs] can make. *)
Record world : Type := mkWorld {
  w_stdin : bytes;
  w_file : text -> option bytes;
  w_gunzip : bytes -> gzip_read;
  w_dir : text -> bool
}.

(** [open_input_path(path)], read to its end as [stream_chunks_from_input]
    does: the bytes of the input, or the exception raised on opening or
    reading it. *)
Definition open_input_path (w : world) (path : text) : result bytes :=
  if Str.eqb path (lit "-") then Ok (w_stdin w)
  else if endswith path (lit ".gz") then
    match w_file w path with
    | None => Raise OSError
    | Some b =>
        match w_gunzip w b with
        | Decompressed data => Ok data
        | BadGzipFile => Raise OSError
        | Truncated => Raise EOFError
        | Corrupt => Raise ZlibError
        end
    end
  else
    match w_file w path with
    | None => Raise OSError
    | Some b => Ok b
    end.

(** [ensure_dir(path)] *)
Definition ensure_dir (w : world) (path : text) : result unit :=
  if w_dir w path then Ok tt else Raise OSError.

(** [a] with the content of its input. *)
Definition with_input (a : args) (content : bytes) : args :=
  mkArgs content (a_output a) (a_shard_size a) (a_single_shard a)
         (a_chunk_size a) (a_compress_level a) (a_base a) (a_idx_file a)
         (a_loc_file a).

(** [main] from the command line on: [input_path] is the value of [-i],
    the other values are those of [argv].  The command line is parsed, the
    output directory is made, the input is opened and read, and the run
    goes on as [main] on the bytes read.  An exception ends the run
    wherever it is raised, so only which one comes first is kept. *)
Definition main_io (w : world) (input_path : text) (argv : args)
  : result output :=
  (a <- parse_args argv ;;
   _ <- ensure_dir w (a_output a) ;;
   content <- open_input_path w input_path ;;
   main (with_input a content))%result.

End Zipnum.

(** ** Definitions used to state the properties *)

(** [ceil(n / k)] for [k > 0]. *)
Definition ceil_div (n k : Z) : Z := ((n + k - 1) / k)%Z.

(** The bytes [start, start + len) of a shard file. *)
Definition byte_range (f : file) (start len : Z) : bytes :=
  firstn (Z.to_nat len) (skipn (Z.to_nat start) (f_data f)).

(** The byte range an index record points to: the shard file is found by
    the record's 1-based shard number. *)
Definition chunk_of_entry (shards : list file) (e : idx_entry)
  : option bytes :=
  match nth_error shards (e_shard_number e - 1) with
  | Some f => Some (byte_range f (e_start_offset e) (e_comp_len e))
  | None => None
  end.

(** The index file when every record is written as soon as it is formed,
    one write per record, in the order of the records. *)
Definition write_each_immediately (entries : list idx_entry) : text :=
  fold_left (fun idxf e => idxf ++ format_idx e) entries [].

(** The index file of the spec's pipeline without a buffer, computed from
    the chunks alone.  The shard writer appends the compressed chunk to
    shard [shard] at [offset] and hands (start offset, compressed length,
    1-based shard number) to the index emitter, which writes the record to
    [idxf] at once: key of the first line, shard name, start offset,
    length, shard number.  When the end of the chunk reaches the target
    size the next chunk starts shard [shard + 1] at offset 0.  A chunk has
    at least one line. *)
Fixpoint index_written_immediately (gzip_compress : bytes -> Z -> bytes)
    (output_dir base : text) (target : size) (level : Z)
    (shard : nat) (offset : Z) (idxf : text)
    (chunks : list (Z * list bytes)) : text :=
  match chunks with
  | [] => idxf
  | (_, chunk_lines) :: rest =>
      let comp_len :=
        Z.of_nat (length (gzip_compress (concat chunk_lines) level)) in
      let key := extract_prejson (hd [] chunk_lines) in
      let name :=
        fst (loc_record (get_shard_path output_dir base shard false)) in
      let idxf :=
        idxf ++ format_idx (mkEntry key name offset comp_len (shard + 1)) in
      if reached (offset + comp_len) target
      then index_written_immediately gzip_compress output_dir base target
             level (shard + 1) 0 idxf rest
      else index_written_immediately gzip_compress output_dir base target
             level shard (offset + comp_len) idxf rest
  end.

(** The state the loop keeps between iterations: shard [n] of the list is
    the file opened for number [n], the open file is the last one. *)
Definition shard_paths (output_dir base : text) (n : nat) : list text :=
  map (fun k => get_shard_path output_dir base k false) (seq 0 n).

Definition wf (output_dir base : text) (st : state) : Prop :=
  created_shards st = shard_paths output_dir base (S (current_shard st))
  /\ f_path (current_raw_fh st)
     = get_shard_path output_dir base (current_shard st) false
  /\ map f_path (closed st) = shard_paths output_dir base (current_shard st).

(** The shard files of a state, in the order they were opened. *)
Definition files_of (st : state) : list file :=
  closed st ++ [current_raw_fh st].

(** The loop of a run: from the initial state, over the chunks of the
    input. *)
Definition loop_of (gzip_compress : bytes -> Z -> bytes)
    (abspath : text -> text) (p : params)
  : result (list idx_entry * state) :=
  run_loop gzip_compress (output_dir p) (base_of abspath p)
           (target_of (shard_size_mb p)) (compress_level p)
           (init_state (output_dir p) (base_of abspath p))
           (stream_chunks_from_input (input p) (chunk_size p)).

(** Whether the run ends with the rename of its only shard: one shard is
    listed and its path does not end with [<base>.cdx.gz]. *)
Definition renames (od base : text) (st : state) : bool :=
  (current_shard st =? 0)
  && negb (endswith (get_shard_path od base 0 false) (base ++ CDX_GZ)).

(** [fs'] has every file of [fs], at the same place, with the same bytes
    and possibly more after them. *)
Definition extends (fs fs' : list file) : Prop :=
  forall i f, nth_error fs i = Some f ->
    exists f' tl, nth_error fs' i = Some f' /\ f_data f' = f_data f ++ tl.

(** The shard file that record [e] names by its shard number holds the
    bytes [z] right after its first [e_start_offset e] bytes, and [z] has
    [e_comp_len e] bytes. *)
Definition holds_chunk (fs : list file) (e : idx_entry) (z : bytes) : Prop :=
  exists f before after,
    nth_error fs (e_shard_number e - 1) = Some f
    /\ f_data f = before ++ z ++ after
    /\ e_start_offset e = Z.of_nat (length before)
    /\ e_comp_len e = Z.of_nat (length z).

(** Reading back a number written in decimal digits, leading zeros
    allowed. *)
Definition read_nat (t : text) : option nat :=
  option_map Nat.of_uint
    (DecimalString.NilEmpty.uint_of_string
       (string_of_list_ascii (map ascii_of_N t))).

(** A stand-in for gzip with the one property the development asks of it:
    two marker bytes, then the data as it is. *)
Definition stored_compress (data : bytes) (level : Z) : bytes :=
  x1f :: x8b :: data.

Definition stored_decompress (data : bytes) : option bytes :=
  match data with
  | x1f :: x8b :: d => Some d
  | _ => None
  end.

(** [a] with another chunk size. *)
Definition with_chunk_size (a : args) (k : Z) : args :=
  mkArgs (a_input a) (a_output a) (a_shard_size a) (a_single_shard a) k
         (a_compress_level a) (a_base a) (a_idx_file a) (a_loc_file a).

(** ** Sample runs *)

(** Seven lines, the first two with a JSON part. *)
Definition seven_lines : bytes :=
  bytes_of "com,example)/ 2020 {a}
com,example)/b 2021 {b}
c
d
e
f
g
".

(** [-o out --base idx -c 3 --single-shard] on the seven lines. *)
Definition run_single : params :=
  mkParams (lit "out") seven_lines Inf 3 (Some (lit "idx")) None None 6.

(** [-o out --base 1 -c 3 --single-shard] on the seven lines. *)
Definition run_base_1 : params :=
  mkParams (lit "out") seven_lines Inf 3 (Some (lit "1")) None None 6.

(** [-o out --base idx -c 3 -s 0] on the seven lines: every chunk brings
    its shard to the target size. *)
Definition run_rollover : params :=
  mkParams (lit "out") seven_lines (Int 0) 3 (Some (lit "idx")) None None 6.

(** [-i two-lines -o out --base idx -c 0]. *)
Definition args_chunk_0 : args :=
  mkArgs (bytes_of "a
b
") (lit "out") 100 false 0 6 (Some (lit "idx")) None None.

(** The chunks of the seven lines by three, and the second of them. *)
Definition seven_by_3 : list (Z * list bytes) :=
  stream_chunks_from_input seven_lines 3.

Definition second_chunk : Z * list bytes := nth 1 seven_by_3 (0%Z, []).

(** What [run_rollover] leaves, with the stand-in for gzip. *)
Definition rollover_output : output :=
  match cdxj_to_zipnum stored_compress (fun x => x) run_rollover with
  | Ok o => o
  | Raise _ => mkOutput [] [] [] [] [] [] []
  end.

(** A line with a JSON part and a line without. *)
Definition line_with_json : bytes := bytes_of "com,example)/ 2020 {a}
".

Definition line_without_json : bytes := bytes_of " c
".

(** The line [a], and what the loop has in its index buffer and in the
    index file after [n] such lines, one line a chunk: the two lengths. *)
Definition short_line : bytes := [x61; x0a].

Definition buffered_after (n : nat) : option (nat * nat) :=
  match run_loop stored_compress (lit "out") (lit "idx") Inf 6
          (init_state (lit "out") (lit "idx"))
          (stream_chunks_from_input (concat (repeat short_line n)) 1) with
  | Ok (_, st) => Some (length (idx_buffer st), length (idxf st))
  | Raise _ => None
  end.

(** ** Definitions used to state further properties *)

(** A line with its terminator: some bytes without a newline, then the
    newline. *)
Definition terminated (l : bytes) : Prop :=
  exists body, l = body ++ [NL] /\ ~ In NL body.

(** A last line cut by the end of the input: not empty, no newline. *)
Definition unterminated (l : bytes) : Prop := l <> [] /\ ~ In NL l.

(** The index records follow one another as the shard writer goes: a
    record starts at [start] in shard number [num]; the next one starts
    right after it in the same shard, or at 0 in the next shard when the
    end of the record reaches the target size. *)
Fixpoint chained (target : size) (start : Z) (num : nat)
    (es : list idx_entry) : Prop :=
  match es with
  | [] => True
  | e :: es' =>
      e_start_offset e = start /\ e_shard_number e = num
      /\ (0 <= e_comp_len e)%Z
      /\ if reached (start + e_comp_len e) target
         then chained target 0 (S num) es'
         else chained target (start + e_comp_len e) num es'
  end.

(** The number of records whose end reaches the target size. *)
Definition rollovers (target : size) (es : list idx_entry) : nat :=
  length (filter (fun e => reached (e_start_offset e + e_comp_len e) target)
                 es).

(** What [run_single] leaves, with the stand-in for gzip. *)
Definition single_output : output :=
  match cdxj_to_zipnum stored_compress (fun x => x) run_single with
  | Ok o => o
  | Raise _ => mkOutput [] [] [] [] [] [] []
  end.

(** The bytes of [line_with_json] before its brace. *)
Definition before_brace : bytes := bytes_of "com,example)/ 2020 ".

(** The order of Python on [str]: code point by code point, a beginning
    before what goes on. *)
Fixpoint text_leb (a b : text) : bool :=
  match a, b with
  | [], _ => true
  | _ :: _, [] => false
  | x :: a', y :: b' =>
      if (x <? y)%N then true
      else if (y <? x)%N then false
      else text_leb a' b'
  end.

(** Four lines in order, and the run [-o out --base idx -c 3] on them. *)
Definition sorted_lines : bytes := bytes_of "a 1 {}
ab 1 {}
b 1 {}
c 1 {}
".

Definition run_sorted : params :=
  mkParams (lit "out") sorted_lines (Int 100) 3 (Some (lit "idx")) None None
           6.

(** [a] with another shard size. *)
Definition with_shard_size (a : args) (z : Z) : args :=
  mkArgs (a_input a) (a_output a) z (a_single_shard a) (a_chunk_size a)
         (a_compress_level a) (a_base a) (a_idx_file a) (a_loc_file a).

(** [-o out --base idx -c 3 --single-shard -s 0] on the seven lines. *)
Definition args_single : args :=
  mkArgs seven_lines (lit "out") 0 true 3 6 (Some (lit "idx")) None None.

(** A world with one file, [in.cdxj] with the two lines of
    [args_chunk_0], and its gzip form [in.cdxj.gz] under the stand-in for
    gzip; every directory can be made. *)
Definition two_lines : bytes := a_input args_chunk_0.

Definition one_file : world :=
  mkWorld []
    (fun path =>
       if Str.eqb path (lit "in.cdxj") then Some two_lines
       else if Str.eqb path (lit "in.cdxj.gz")
            then Some (stored_compress two_lines 6)
            else None)
    (fun b => match stored_decompress b with
              | Some d => Decompressed d
              | None => BadGzipFile
              end)
    (fun _ => true).

(** The same world where no directory can be made. *)
Definition no_directory : world :=
  mkWorld (w_stdin one_file) (w_file one_file) (w_gunzip one_file)
          (fun _ => false).

(** [a] with another compression level. *)
Definition with_compress_level (a : args) (l : Z) : args :=
  mkArgs (a_input a) (a_output a) (a_shard_size a) (a_single_shard a)
         (a_chunk_size a) l (a_base a) (a_idx_file a) (a_loc_file a).

(** * Properties *)

Unset Implicit Arguments.

(** ** The definitions on small inputs *)

Example read_lines_last_unterminated :
  read_lines [x61; x0a; x62] = [[x61; x0a]; [x62]].
Proof. reflexivity. Qed.

Example seven_lines_by_3 :
  map (fun c => (fst c, length (snd c))) (stream_chunks_from_input seven_lines 3)
  = [(0%Z, 3); (1%Z, 3); (2%Z, 1)].
Proof. reflexivity. Qed.

Example decode_replaces_bad_lead : decode [xe0; x80; x41] = [FFFD; FFFD; 65%N].
Proof. reflexivity. Qed.

Example decode_cut_sequence : decode [x41; xe1; x80] = [65%N; FFFD].
Proof. reflexivity. Qed.

Example decode_two_bytes : decode [xc3; xa9] = [233%N].
Proof. reflexivity. Qed.

Example key_of_line_with_json :
  extract_prejson line_with_json = lit "com,example)/ 2020".
Proof. reflexivity. Qed.

Example two_digits :
  map of_nat_02d [1; 9; 10; 123] = [lit "01"; lit "09"; lit "10"; lit "123"].
Proof. reflexivity. Qed.

Example first_shard_path :
  get_shard_path (lit "out") (lit "idx") 0 false = lit "out/idx-01.cdx.gz".
Proof. reflexivity. Qed.

Example shard_name_of_path :
  loc_record (lit "out/idx-01.cdx.gz") = (lit "idx-01", lit "idx-01.cdx.gz").
Proof. reflexivity. Qed.

(** The index buffer is written out when it reaches 100 lines. *)
Example buffer_at_99_100_101 :
  buffered_after 99 = Some (99, 0)
  /\ buffered_after 100 = Some (0, 1672)
  /\ buffered_after 101 = Some (1, 1672).
Proof. now vm_compute. Qed.

(** Seven lines by three with no target size: three records, one shard,
    renamed to the unnumbered path. *)
Example seven_lines_single_shard :
  exists o,
    cdxj_to_zipnum stored_compress (fun x => x) run_single = Ok o
    /\ length (out_entries o) = 3
    /\ map (fun f => (f_path f, length (f_data f))) (out_shards o)
       = [(lit "out/idx.cdx.gz", 63)]
    /\ map e_start_offset (out_entries o) = [0; 51; 59]%Z
    /\ map e_comp_len (out_entries o) = [51; 8; 4]%Z.
Proof. eexists. split; [vm_compute; reflexivity|]. now vm_compute. Qed.

(** No line: one empty shard, no record, one location record. *)
Example no_line_one_empty_shard :
  exists o,
    cdxj_to_zipnum stored_compress (fun x => x)
      (mkParams (lit "out") [] (Int 100) 3000 (Some (lit "idx")) None None 6)
    = Ok o
    /\ out_entries o = [] /\ out_idx o = []
    /\ out_shards o = [mkFile (lit "out/idx.cdx.gz") []]
    /\ map loc_record (out_created_shards o)
       = [(lit "idx", lit "idx.cdx.gz")].
Proof. eexists. split; [vm_compute; reflexivity|]. now vm_compute. Qed.

(** The index written without a buffer for the seven lines by three: with
    a target size of 0 every chunk starts a shard, with no target size the
    chunks follow one another in the first shard. *)
Example immediate_index_of_seven_lines :
  index_written_immediately stored_compress (lit "out") (lit "idx")
    (target_of (Int 0)) 6 0 0 [] seven_by_3
  = concat (map format_idx
              [mkEntry (lit "com,example)/ 2020") (lit "idx-01") 0 51 1;
               mkEntry (lit "d") (lit "idx-02") 0 8 2;
               mkEntry (lit "g") (lit "idx-03") 0 4 3])
  /\ index_written_immediately stored_compress (lit "out") (lit "idx")
       (target_of Inf) 6 0 0 [] seven_by_3
     = concat (map format_idx
                 [mkEntry (lit "com,example)/ 2020") (lit "idx-01") 0 51 1;
                  mkEntry (lit "d") (lit "idx-01") 51 8 1;
                  mkEntry (lit "g") (lit "idx-01") 59 4 1]).
Proof. split; vm_compute; reflexivity. Qed.

(** ** Strings *)

Lemma dropwhile_app_stop (p : N -> bool) (a b : text) (c : N) :
  p c = false -> dropwhile p (a ++ c :: b) = dropwhile p a ++ c :: b.
Proof.
  intros Hc. induction a as [|x a IH]; cbn.
  - now rewrite Hc.
  - destruct (p x); [exact IH | reflexivity].
Qed.

Lemma dropwhile_all (p : N -> bool) (a : text) :
  forallb p a = true -> dropwhile p a = [].
Proof.
  induction a as [|x a IH]; cbn; [reflexivity|].
  destruct (p x); cbn; [exact IH | discriminate].
Qed.

Lemma dropwhile_app_all (p : N -> bool) (a b : text) :
  forallb p a = true -> dropwhile p (a ++ b) = dropwhile p b.
Proof.
  induction a as [|x a IH]; cbn; [reflexivity|].
  destruct (p x); cbn; [exact IH | discriminate].
Qed.

(** What [dropwhile] removes satisfies the test. *)
Lemma dropwhile_split (p : N -> bool) (a : text) :
  exists d, a = d ++ dropwhile p a /\ forallb p d = true.
Proof.
  induction a as [|x a (d & E & F)]; cbn.
  - now exists [].
  - destruct (p x) eqn:Hx.
    + exists (x :: d). cbn. rewrite Hx, F. now rewrite <- E.
    + now exists [].
Qed.

Lemma dropwhile_app_keep (p : N -> bool) (a b : text) :
  forallb p a = false -> dropwhile p (a ++ b) = dropwhile p a ++ b.
Proof.
  induction a as [|x a IH]; cbn; [discriminate|].
  destruct (p x); cbn; [exact IH | reflexivity].
Qed.

Lemma forallb_rev (p : N -> bool) (a : text) :
  forallb p (rev a) = forallb p a.
Proof.
  induction a as [|x a IH]; cbn; [reflexivity|].
  rewrite forallb_app, IH. cbn. rewrite andb_true_r. apply andb_comm.
Qed.

(** [rstrip_chars] cuts a tail made of the characters to strip. *)
Lemma rstrip_chars_split (s chars : text) :
  exists tail,
    s = rstrip_chars s chars ++ tail
    /\ forallb (fun c => existsb (N.eqb c) chars) tail = true.
Proof.
  unfold rstrip_chars.
  destruct (dropwhile_split (fun c => existsb (N.eqb c) chars) (rev s))
    as (d & E & F).
  exists (rev d). split.
  - rewrite <- rev_app_distr, <- E. now rewrite rev_involutive.
  - now rewrite forallb_rev.
Qed.

Lemma rstrip_chars_keep (a b chars : text) (c : N) :
  existsb (N.eqb c) chars = false ->
  rstrip_chars (a ++ c :: b) chars = a ++ c :: rstrip_chars b chars.
Proof.
  intros Hc. unfold rstrip_chars.
  rewrite rev_app_distr. cbn [rev]. rewrite <- app_assoc. cbn [app].
  rewrite dropwhile_app_stop by exact Hc.
  rewrite rev_app_distr. cbn [rev]. rewrite rev_involutive.
  now rewrite <- app_assoc.
Qed.

Lemma rstrip_app_space (a tail : text) :
  forallb isspace tail = true -> rstrip (a ++ tail) = rstrip a.
Proof.
  intros H. unfold rstrip. rewrite rev_app_distr.
  now rewrite dropwhile_app_all by (now rewrite forallb_rev).
Qed.

(** Stripping white space after a tail of white space was cut gives what
    stripping the whole gives. *)
Lemma strip_app_space (a tail : text) :
  forallb isspace tail = true -> strip (a ++ tail) = strip a.
Proof.
  intros H. unfold strip, lstrip.
  destruct (forallb isspace a) eqn:Ha.
  - rewrite dropwhile_app_all by exact Ha.
    rewrite (dropwhile_all _ _ H), (dropwhile_all _ _ Ha). reflexivity.
  - rewrite dropwhile_app_keep by exact Ha. now apply rstrip_app_space.
Qed.

Lemma find_from_absent (c : N) (s : text) (i : Z) :
  ~ In c s -> find_from c s i = (-1)%Z.
Proof.
  revert i; induction s as [|d s IH]; intros i H; cbn; [reflexivity|].
  destruct (N.eqb_spec d c) as [->|Hd].
  - exfalso. apply H. now left.
  - apply IH. intros Hin. apply H. now right.
Qed.

Lemma find_from_first (c : N) (a b : text) (i : Z) :
  ~ In c a -> find_from c (a ++ c :: b) i = (i + Z.of_nat (length a))%Z.
Proof.
  revert i; induction a as [|d a IH]; intros i H; cbn [app find_from].
  - rewrite N.eqb_refl. cbn. lia.
  - destruct (N.eqb_spec d c) as [->|Hd].
    + exfalso. apply H. now left.
    + rewrite IH by (intros Hin; apply H; now right). cbn [length]. lia.
Qed.

(** ** Shard paths are distinct *)

Lemma unlit_lit (s : string) :
  string_of_list_ascii (map ascii_of_N (lit s)) = s.
Proof.
  unfold lit. rewrite map_map.
  rewrite (map_ext _ (fun a => a)) by (intros a; apply ascii_N_embedding).
  rewrite map_id. apply string_of_list_ascii_of_string.
Qed.

Lemma read_nat_zeros (k : nat) (t : text) :
  read_nat (repeat 48%N k ++ t) = read_nat t.
Proof.
  induction k as [|k IH]; [reflexivity|].
  unfold read_nat in *. cbn [repeat app map string_of_list_ascii].
  change (ascii_of_N 48) with "0"%char.
  cbn [DecimalString.NilEmpty.uint_of_string].
  destruct (DecimalString.NilEmpty.uint_of_string
              (string_of_list_ascii (map ascii_of_N (repeat 48%N k ++ t))))
    as [u|]; destruct (DecimalString.NilEmpty.uint_of_string
                         (string_of_list_ascii (map ascii_of_N t)))
    as [v|]; cbn in IH |- *; try discriminate; auto.
Qed.

Lemma read_nat_of_nat (n : nat) : read_nat (Str.of_nat n) = Some n.
Proof.
  unfold read_nat, Str.of_nat. rewrite unlit_lit.
  pose proof (DecimalNat.Unsigned.of_to n) as Hn.
  destruct (Nat.to_uint n) as [|u|u|u|u|u|u|u|u|u|u] eqn:E;
    [cbn in Hn |- *; now subst n | ..].
  all: match goal with
       | |- context [DecimalString.NilZero.string_of_uint ?d] =>
           assert (Hu : DecimalString.NilZero.uint_of_string
                          (DecimalString.NilZero.string_of_uint d) = Some d)
             by (apply DecimalString.NilZero.usu; discriminate)
       end.
  all: cbn [DecimalString.NilZero.string_of_uint
            DecimalString.NilEmpty.string_of_uint
            DecimalString.NilZero.uint_of_string] in Hu |- *.
  all: rewrite Hu; cbn [option_map]; now rewrite Hn.
Qed.

(** The two-digit form of a number is read back as that number. *)
Lemma read_nat_02d (n : nat) : read_nat (of_nat_02d n) = Some n.
Proof.
  unfold of_nat_02d. rewrite read_nat_zeros. apply read_nat_of_nat.
Qed.

Lemma of_nat_02d_inj (n m : nat) : of_nat_02d n = of_nat_02d m -> n = m.
Proof.
  intros E. apply (f_equal read_nat) in E.
  rewrite !read_nat_02d in E. now injection E.
Qed.

Lemma startswith_nil (s : text) : startswith s [] = true.
Proof. now destruct s. Qed.

(** Joining a directory and a name that goes on: the continuation is
    appended to the joined path. *)
Lemma path_join_app (a b x : text) :
  b <> [] -> path_join a (b ++ x) = path_join a b ++ x.
Proof.
  destruct b as [|c b]; [congruence|]. intros _.
  unfold path_join. cbn [app startswith]. rewrite !startswith_nil.
  destruct (N.eqb SEP c && true); [reflexivity|].
  destruct (orb _ _); cbn [app]; now rewrite <- !app_assoc.
Qed.

(** The path of a shard is the numbered part after a prefix that does not
    depend on the number. *)
Lemma get_shard_path_prefix (od base : text) (k : nat) :
  get_shard_path od base k false
  = path_join od (base ++ lit "-") ++ of_nat_02d (k + 1) ++ CDX_GZ.
Proof.
  unfold get_shard_path. rewrite app_assoc. apply path_join_app.
  destruct base; discriminate.
Qed.

Lemma get_shard_path_inj (od base : text) (k k' : nat) :
  get_shard_path od base k false = get_shard_path od base k' false ->
  k = k'.
Proof.
  rewrite !get_shard_path_prefix. intros E.
  apply app_inv_head, app_inv_tail, of_nat_02d_inj in E. lia.
Qed.

(** No two shards of a run have the same path. *)
Lemma shard_paths_NoDup (od base : text) (n : nat) :
  NoDup (shard_paths od base n).
Proof.
  unfold shard_paths. generalize 0 as a.
  induction n as [|n IH]; intros a; cbn [seq map]; constructor; [|apply IH].
  intros Hin. apply in_map_iff in Hin. destruct Hin as (k & Hk & Hin).
  apply get_shard_path_inj in Hk. apply in_seq in Hin. lia.
Qed.

(** ** Shard names are distinct *)

Lemma rfind_from_absent (c : N) (s : text) (i last : Z) :
  ~ In c s -> rfind_from c s i last = last.
Proof.
  revert i last; induction s as [|d s IH]; intros i last H; cbn;
    [reflexivity|].
  destruct (N.eqb_spec d c) as [->|_]; [exfalso; apply H; now left|].
  apply IH. intros Hin. apply H. now right.
Qed.

Lemma rfind_from_app (c : N) (a s : text) (i last : Z) :
  ~ In c s -> rfind_from c (a ++ s) i last = rfind_from c a i last.
Proof.
  intros H. revert i last; induction a as [|d a IH]; intros i last; cbn.
  - now apply rfind_from_absent.
  - apply IH.
Qed.

Lemma rfind_from_bounds (c : N) (a : text) (i last : Z) :
  (-1 <= last < i)%Z ->
  (-1 <= rfind_from c a i last < i + Z.of_nat (length a))%Z.
Proof.
  revert i last; induction a as [|d a IH]; intros i last H; cbn [rfind_from].
  - cbn. lia.
  - specialize (IH (i + 1)%Z (if N.eqb d c then i else last)).
    cbn [length]. destruct (N.eqb d c); lia.
Qed.

(** The base name of a path that goes on without a separator. *)
Lemma basename_app (a s : text) :
  ~ In SEP s -> basename (a ++ s) = basename a ++ s.
Proof.
  intros H. unfold basename, rfind, slice_from.
  rewrite rfind_from_app by exact H.
  pose proof (rfind_from_bounds SEP a 0 (-1) ltac:(lia)) as B.
  rewrite skipn_app.
  replace (Z.to_nat (rfind_from SEP a 0 (-1) + 1) - length a) with 0 by lia.
  reflexivity.
Qed.

Lemma startswith_app_stop (c : N) (old w v : text) :
  ~ In c old -> startswith (w ++ c :: v) old = startswith w old.
Proof.
  intros H. revert w; induction old as [|x old IH]; intros w.
  - now rewrite !startswith_nil.
  - assert (Hx : N.eqb x c = false)
      by (apply N.eqb_neq; intros ->; apply H; now left).
    destruct w as [|a w]; cbn [app startswith].
    + now rewrite Hx.
    + rewrite IH by (intros Hin; apply H; now right). reflexivity.
Qed.

Lemma startswith_cons (s p : text) (a x : N) :
  startswith (a :: s) (x :: p) = true -> startswith s p = true.
Proof. cbn. intros H. now apply andb_prop in H. Qed.

(** The last [S k] characters of [old] are one of its characters and then
    its last [k] characters. *)
Lemma skipn_last_step (old : text) (k : nat) :
  S k <= length old ->
  exists x, In x old
            /\ skipn (length old - S k) old = x :: skipn (length old - k) old.
Proof.
  intros Hk.
  destruct (skipn (length old - S k) old) as [|x r] eqn:E.
  - apply (f_equal (@length _)) in E. rewrite length_skipn in E.
    cbn in E. lia.
  - exists x. split.
    + rewrite <- (firstn_skipn (length old - S k) old).
      apply in_or_app. right. rewrite E. now left.
    + f_equal.
      replace (length old - k) with (1 + (length old - S k)) by lia.
      rewrite <- skipn_skipn, E. reflexivity.
Qed.

(** Removing [old] from a text that has, after [u], a character [c] that
    is not in [old]: no occurrence goes across [c]. *)
Lemma remove_from_stop (old v : text) (c : N) :
  old <> [] -> ~ In c old ->
  forall (u : text) (sk : nat),
    sk <= length old ->
    startswith (u ++ c :: v) (skipn (length old - sk) old) = true ->
    remove_from old sk (u ++ c :: v)
    = remove_from old sk u ++ c :: remove_from old 0 v.
Proof.
  intros Hne Hc. induction u as [|a u IH]; intros sk Hsk Hst.
  - destruct sk as [|k].
    + cbn [app remove_from].
      pose proof (startswith_app_stop c old [] v Hc) as Hs.
      cbn [app] in Hs. rewrite Hs.
      destruct old; [congruence | reflexivity].
    + destruct (skipn_last_step old k Hsk) as (x & Hx & E).
      rewrite E in Hst. cbn in Hst. apply andb_prop in Hst.
      destruct Hst as (Hxc & _). apply N.eqb_eq in Hxc. subst x. tauto.
  - destruct sk as [|k]; cbn [app remove_from].
    + pose proof (startswith_app_stop c old (a :: u) v Hc) as Hs.
      cbn [app] in Hs. rewrite Hs.
      destruct (startswith (a :: u) old) eqn:Hsw.
      * apply IH; [lia|].
        destruct old as [|x old']; [congruence|].
        cbn [length]. replace (S (length old') - (S (length old') - 1)) with 1
          by lia.
        cbn [skipn]. exact (startswith_cons _ _ _ _ Hs).
      * cbn [app]. f_equal. apply IH; [lia|].
        rewrite Nat.sub_0_r, skipn_all. apply startswith_nil.
    + apply IH; [lia|].
      destruct (skipn_last_step old k Hsk) as (x & Hx & E).
      rewrite E in Hst. exact (startswith_cons _ _ _ _ Hst).
Qed.

Lemma remove_from_skip_all (old s : text) :
  remove_from old (length s) s = [].
Proof. induction s as [|a s IH]; cbn; auto. Qed.

(** Characters that do not start [old] stay. *)
Lemma remove_from_keep (old' w rest : text) (x : N) :
  Forall (fun ch => ch <> x) w ->
  remove_from (x :: old') 0 (w ++ rest)
  = w ++ remove_from (x :: old') 0 rest.
Proof.
  induction 1 as [|a w Ha _ IH]; [reflexivity|].
  cbn [app remove_from startswith].
  destruct (N.eqb_spec x a) as [->|_]; [congruence|].
  cbn [andb]. now rewrite IH.
Qed.

Lemma string_of_uint_digits (d : Decimal.uint) :
  Forall (fun ch => (48 <= ch <= 57)%N)
         (lit (DecimalString.NilEmpty.string_of_uint d)).
Proof.
  induction d; cbn; constructor; auto; cbn; lia.
Qed.

(** The two-digit form is made of digits. *)
Lemma of_nat_02d_digits (n : nat) :
  Forall (fun ch => (48 <= ch <= 57)%N) (of_nat_02d n).
Proof.
  unfold of_nat_02d. apply Forall_app. split.
  - apply Forall_forall. intros ch Hin. apply repeat_spec in Hin. lia.
  - unfold Str.of_nat, DecimalString.NilZero.string_of_uint.
    destruct (Nat.to_uint n) eqn:E;
      [cbn; constructor; [lia|constructor]
      | rewrite <- E; apply string_of_uint_digits ..].
Qed.

(** The name of shard [k] is a text that does not depend on [k], a hyphen
    and the two-digit form of [k + 1]. *)
Lemma shard_name_form (od base : text) :
  exists r, forall k,
    fst (loc_record (get_shard_path od base k false))
    = r ++ lit "-" ++ of_nat_02d (k + 1).
Proof.
  assert (HQ : exists q, path_join od (base ++ lit "-") = q ++ lit "-").
  { unfold path_join. destruct (startswith _ _); [now exists base|].
    destruct (orb _ _).
    - exists (od ++ base). now rewrite app_assoc.
    - exists (od ++ [SEP] ++ base). now rewrite <- !app_assoc. }
  destruct HQ as (q & Hq).
  exists (remove_from CDX_GZ 0 (basename q)). intros k.
  pose proof (of_nat_02d_digits (k + 1)) as Hd.
  rewrite get_shard_path_prefix, Hq. unfold loc_record.
  cbn [fst]. rewrite <- app_assoc.
  rewrite basename_app.
  2:{ intros Hin. apply in_app_or in Hin. destruct Hin as [Hin|Hin].
      - cbn in Hin. destruct Hin as [Hin|[]]. discriminate Hin.
      - apply in_app_or in Hin. destruct Hin as [Hin|Hin].
        + rewrite Forall_forall in Hd. specialize (Hd _ Hin).
          unfold SEP in Hd. lia.
        + cbn in Hin.
          repeat (destruct Hin as [Hin|Hin]; [discriminate Hin|]).
          exact Hin. }
  unfold remove_all. change (lit "-") with [45%N]. cbn [app].
  rewrite (remove_from_stop CDX_GZ _ 45%N).
  - f_equal. f_equal.
    change CDX_GZ with (46%N :: lit "cdx.gz") at 1.
    rewrite remove_from_keep.
    + change (remove_from (46%N :: lit "cdx.gz") 0 CDX_GZ) with (@nil N).
      apply app_nil_r.
    + eapply Forall_impl; [|exact Hd]. cbn. intros ch ?. lia.
  - discriminate.
  - cbn. intros Hin.
    repeat (destruct Hin as [Hin|Hin]; [discriminate Hin|]). exact Hin.
  - lia.
  - rewrite Nat.sub_0_r, skipn_all. apply startswith_nil.
Qed.

(** Two shards of a run have different names. *)
Lemma shard_name_inj (od base : text) (k k' : nat) :
  fst (loc_record (get_shard_path od base k false))
  = fst (loc_record (get_shard_path od base k' false)) ->
  k = k'.
Proof.
  destruct (shard_name_form od base) as (r & Hr). rewrite !Hr.
  intros E. apply app_inv_head, app_inv_head, of_nat_02d_inj in E. lia.
Qed.

(** ** Decoding and the brace *)

Lemma land_low (b : N) (k : N) : N.land b (N.ones k) = (b mod 2 ^ k)%N.
Proof. apply N.land_ones. Qed.

(** Tests on code points, read as arithmetic facts. *)
Ltac tests_to_facts :=
  repeat match goal with
         | H : andb _ _ = true |- _ => apply andb_prop in H; destruct H
         | H : andb _ _ = false |- _ => apply andb_false_iff in H
         | H : N.leb _ _ = true |- _ => apply N.leb_le in H
         | H : N.leb _ _ = false |- _ => apply N.leb_gt in H
         | H : N.ltb _ _ = true |- _ => apply N.ltb_lt in H
         | H : N.ltb _ _ = false |- _ => apply N.ltb_ge in H
         | H : N.eqb _ _ = true |- _ => apply N.eqb_eq in H
         | H : N.eqb _ _ = false |- _ => apply N.eqb_neq in H
         end.

Lemma is_cont_high (b : N) : is_cont b = true -> (128 <= b)%N.
Proof. unfold is_cont. intros H. tests_to_facts. lia. Qed.

Lemma second_ok_high (b0 b1 : N) : second_ok b0 b1 = true -> (128 <= b1)%N.
Proof.
  unfold second_ok, is_cont.
  repeat match goal with
         | |- context [if ?c then _ else _] => destruct c
         end; intros H; tests_to_facts; lia.
Qed.

(** A decoded sequence of two, three or four bytes is not an ASCII
    character. *)
Lemma code2_high (b0 b1 : N) :
  (194 <= b0)%N -> (b0 <= 223)%N ->
  (128 <= N.shiftl (N.land b0 31) 6 + low6 b1)%N.
Proof.
  intros H1 H2. rewrite N.shiftl_mul_pow2.
  change 31%N with (N.ones 5). rewrite land_low.
  change (2 ^ 5)%N with 32%N. change (2 ^ 6)%N with 64%N.
  assert (b0 - 192 = b0 mod 32)%N
    by (apply N.mod_unique with (q := 6%N); lia).
  generalize (low6 b1). intros x. lia.
Qed.

Lemma code3_high (b0 b1 b2 : N) :
  (224 <= b0)%N -> (b0 <= 239)%N -> second_ok b0 b1 = true ->
  (128 <= N.shiftl (N.land b0 15) 12 + N.shiftl (low6 b1) 6 + low6 b2)%N.
Proof.
  intros H1 H2 H. rewrite !N.shiftl_mul_pow2.
  generalize (low6 b2). intros x. unfold low6.
  change 15%N with (N.ones 4). change 63%N with (N.ones 6).
  rewrite !land_low.
  change (2 ^ 4)%N with 16%N. change (2 ^ 6)%N with 64%N.
  change (2 ^ 12)%N with 4096%N.
  assert (E0 : (b0 - 224 = b0 mod 16)%N)
    by (apply N.mod_unique with (q := 14%N); lia).
  rewrite <- E0.
  unfold second_ok, is_cont in H.
  destruct (N.eqb_spec b0 224) as [->|Hne].
  - cbn in H. tests_to_facts.
    assert (E1 : (b1 - 128 = b1 mod 64)%N)
      by (apply N.mod_unique with (q := 2%N); lia).
    rewrite <- E1. lia.
  - generalize (b1 mod 64)%N. intros y. lia.
Qed.

Lemma code4_high (b0 b1 b2 b3 : N) :
  (240 <= b0)%N -> (b0 <= 244)%N -> second_ok b0 b1 = true ->
  (128 <= N.shiftl (N.land b0 7) 18 + N.shiftl (low6 b1) 12
          + N.shiftl (low6 b2) 6 + low6 b3)%N.
Proof.
  intros H1 H2 H. rewrite !N.shiftl_mul_pow2.
  generalize (low6 b2) (low6 b3). intros x2 x3. unfold low6.
  change 7%N with (N.ones 3). change 63%N with (N.ones 6).
  rewrite !land_low.
  change (2 ^ 3)%N with 8%N. change (2 ^ 6)%N with 64%N.
  change (2 ^ 12)%N with 4096%N. change (2 ^ 18)%N with 262144%N.
  assert (E0 : (b0 - 240 = b0 mod 8)%N)
    by (apply N.mod_unique with (q := 30%N); lia).
  rewrite <- E0.
  unfold second_ok, is_cont in H.
  destruct (N.eqb_spec b0 240) as [->|Hne].
  - cbn in H. tests_to_facts.
    assert (E1 : (b1 - 128 = b1 mod 64)%N)
      by (apply N.mod_unique with (q := 2%N); lia).
    rewrite <- E1. lia.
  - generalize (b1 mod 64)%N. intros y. lia.
Qed.

(** Decoding neither makes nor loses an ASCII character: the bytes below
    128 are the ASCII characters of the text. *)
Lemma decode_codes_ascii (c : N) (n : nat) (bs : list N) :
  (c < 128)%N -> length bs <= n ->
  (In c (decode_codes bs) <-> In c bs).
Proof.
  intros Hc. revert bs. induction n as [|n IH]; intros bs Hn.
  - destruct bs; [reflexivity | cbn in Hn; lia].
  - destruct bs as [|b0 r0]; [reflexivity|]. cbn [decode_codes].
    cbn [length] in Hn.
    assert (IH0 := IH r0 ltac:(lia)).
    assert (H2 := code2_high b0). assert (H3 := code3_high b0).
    assert (H4 := code4_high b0).
    assert (S2 := second_ok_high b0).
    destruct (b0 <? 128)%N eqn:A0;
      [|destruct ((194 <=? b0) && (b0 <=? 223))%N eqn:A2;
        [|destruct ((224 <=? b0) && (b0 <=? 239))%N eqn:A3;
          [|destruct ((240 <=? b0) && (b0 <=? 244))%N eqn:A4]]].
    all: tests_to_facts.
    all: try (clear IH H2 H3 H4 S2; cbn [In] in *; unfold FFFD;
              intuition lia).
    all: destruct r0 as [|b1 r1];
      [clear IH H2 H3 H4 S2; cbn [In] in *; unfold FFFD; intuition lia|].
    all: cbn [length] in Hn; assert (IH1 := IH r1 ltac:(lia)).
    + destruct (is_cont b1) eqn:C1.
      * apply is_cont_high in C1. specialize (H2 b1 ltac:(lia) ltac:(lia)).
        clear IH H3 H4 S2. cbn [In] in *. intuition lia.
      * clear IH H2 H3 H4 S2. cbn [In] in *. unfold FFFD. intuition lia.
    + destruct (second_ok b0 b1) eqn:C1;
        [|clear IH H2 H3 H4 S2; cbn [In] in *; unfold FFFD; intuition lia].
      specialize (S2 b1 C1).
      destruct r1 as [|b2 r2];
        [clear IH H2 H3 H4; cbn [In] in *; unfold FFFD; intuition lia|].
      cbn [length] in Hn. assert (IH2 := IH r2 ltac:(lia)).
      destruct (is_cont b2) eqn:C2.
      * apply is_cont_high in C2.
        specialize (H3 b1 b2 ltac:(lia) ltac:(lia) C1).
        clear IH H2 H4. cbn [In] in *. intuition lia.
      * clear IH H2 H3 H4. cbn [In] in *. unfold FFFD. intuition lia.
    + destruct (second_ok b0 b1) eqn:C1;
        [|clear IH H2 H3 H4 S2; cbn [In] in *; unfold FFFD; intuition lia].
      specialize (S2 b1 C1).
      destruct r1 as [|b2 r2];
        [clear IH H2 H3 H4; cbn [In] in *; unfold FFFD; intuition lia|].
      cbn [length] in Hn. assert (IH2 := IH r2 ltac:(lia)).
      destruct (is_cont b2) eqn:C2;
        [|clear IH H2 H3 H4; cbn [In] in *; unfold FFFD; intuition lia].
      apply is_cont_high in C2.
      destruct r2 as [|b3 r3];
        [clear IH H2 H3 H4; cbn [In] in *; unfold FFFD; intuition lia|].
      cbn [length] in Hn. assert (IH3 := IH r3 ltac:(lia)).
      destruct (is_cont b3) eqn:C3.
      * apply is_cont_high in C3.
        specialize (H4 b1 b2 b3 ltac:(lia) ltac:(lia) C1).
        clear IH H2 H3. cbn [In] in *. intuition lia.
      * clear IH H2 H3 H4. cbn [In] in *. unfold FFFD. intuition lia.
Qed.

Lemma decode_ascii (c : byte) (line : bytes) :
  (Byte.to_N c < 128)%N -> (In c line <-> In (Byte.to_N c) (decode line)).
Proof.
  intros Hc. unfold decode.
  rewrite (decode_codes_ascii _ _ _ Hc (le_n _)), in_map_iff.
  split.
  - intros H. now exists c.
  - intros (b & Hb & Hin).
    assert (E : Byte.of_N (Byte.to_N b) = Byte.of_N (Byte.to_N c))
      by now rewrite Hb.
    rewrite !Byte.of_to_N in E. now injection E as <-.
Qed.

(** ** Key extractor *)

(** C8. The key extractor is a function of the raw line, defined on every
    line.  The line has a brace exactly when its decoded text has one.  When
    it has one, the key is the text before the first brace, stripped of the
    white space around it; when it has none, the key is the whole decoded
    line, stripped (which removes the line terminator).  The same line
    gives the same key. *)
Theorem extract_prejson_key (line : bytes) :
  (In x7b line <-> In LBRACE (decode line))
  /\ (forall pre post,
        decode line = pre ++ LBRACE :: post -> ~ In LBRACE pre ->
        extract_prejson line = strip pre)
  /\ (~ In LBRACE (decode line) ->
      extract_prejson line = strip (decode line))
  /\ (forall line', line' = line ->
        extract_prejson line' = extract_prejson line).
Proof.
  split; [|split; [|split]].
  - apply (decode_ascii x7b). cbn. lia.
  - intros pre post E Hpre. unfold extract_prejson. rewrite E.
    rewrite rstrip_chars_keep by reflexivity.
    unfold find. rewrite find_from_first by exact Hpre.
    destruct (0 + Z.of_nat (length pre) =? -1)%Z eqn:T;
      [apply Z.eqb_eq in T; lia|].
    cbn [negb]. unfold slice_to. cbn [Z.add].
    rewrite Nat2Z.id, firstn_app, firstn_all, Nat.sub_diag. cbn [firstn].
    now rewrite app_nil_r.
  - intros Hno. unfold extract_prejson.
    destruct (rstrip_chars_split (decode line) [CR; LF]) as (tail & E & F).
    assert (Hno' : ~ In LBRACE (rstrip_chars (decode line) [CR; LF])).
    { intros Hin. apply Hno. rewrite E. apply in_or_app. now left. }
    unfold find. rewrite find_from_absent by exact Hno'.
    change (negb (-1 =? -1)%Z) with false. cbv iota.
    set (l := rstrip_chars (decode line) [CR; LF]) in *. clearbody l.
    rewrite E. symmetry. apply strip_app_space.
    apply forallb_forall. intros c Hc.
    rewrite forallb_forall in F. specialize (F c Hc). cbn in F.
    rewrite orb_false_r in F. apply orb_prop in F.
    destruct F as [F|F]; apply N.eqb_eq in F; subst c; reflexivity.
  - now intros line' ->.
Qed.

(** ** Lines and chunks *)

(** With a chunk size of 1 or less every line is a chunk of its own. *)
Lemma stream_chunks_loop_small (k : Z) (lines : list bytes) (i : Z) :
  (k <= 1)%Z ->
  stream_chunks_loop k [] i lines = stream_chunks_loop 1 [] i lines.
Proof.
  intros Hk. revert i; induction lines as [|l lines IH]; intros i;
    cbn [stream_chunks_loop app length]; [reflexivity|].
  destruct (Z.geb_spec (Z.of_nat 1) k); [|lia].
  cbn [Z.of_nat Z.geb Z.compare Pos.compare Pos.of_succ_nat].
  now rewrite IH.
Qed.

Lemma stream_chunks_loop_one (lines : list bytes) (i : Z) :
  Forall (fun c => length (snd c) = 1) (stream_chunks_loop 1 [] i lines).
Proof.
  revert i; induction lines as [|l lines IH]; intros i; cbn; constructor;
    auto.
Qed.

Lemma read_lines_from_concat (s cur : bytes) :
  concat (read_lines_from cur s) = rev cur ++ s.
Proof.
  revert cur; induction s as [|b s IH]; intros cur; simpl.
  - destruct cur; simpl; [reflexivity|]. now rewrite !app_nil_r.
  - destruct (Byte.eqb b NL); simpl; rewrite IH; simpl;
      now rewrite <- app_assoc.
Qed.

Lemma read_lines_concat (s : bytes) : concat (read_lines s) = s.
Proof. unfold read_lines. now rewrite read_lines_from_concat. Qed.

Lemma read_lines_from_nonempty (s cur : bytes) :
  Forall (fun l => l <> []) (read_lines_from cur s).
Proof.
  revert cur; induction s as [|b s IH]; intros cur; simpl.
  - destruct cur as [|c cur]; constructor; [|constructor].
    intros E. apply (f_equal (@length _)) in E.
    rewrite length_rev in E. discriminate.
  - destruct (Byte.eqb b NL); [constructor|]; auto.
    intros E. apply (f_equal (@length _)) in E. simpl in E.
    rewrite length_app in E. simpl in E. lia.
Qed.

Lemma stream_chunks_loop_concat (k : Z) (lines chunk : list bytes) (i : Z) :
  concat (map (fun c => concat (snd c)) (stream_chunks_loop k chunk i lines))
  = concat chunk ++ concat lines.
Proof.
  revert chunk i; induction lines as [|l lines IH]; intros chunk i; simpl.
  - destruct chunk; simpl; now rewrite ?app_nil_r.
  - destruct (Z.of_nat (length (chunk ++ [l])) >=? k)%Z; simpl;
      rewrite IH, concat_app; simpl; now rewrite app_nil_r, <- ?app_assoc.
Qed.

Lemma stream_chunks_loop_nonempty (k : Z) (lines chunk : list bytes) (i : Z) :
  Forall (fun c => snd c <> []) (stream_chunks_loop k chunk i lines).
Proof.
  revert chunk i; induction lines as [|l lines IH]; intros chunk i; simpl.
  - destruct chunk; constructor; [discriminate|constructor].
  - destruct (Z.of_nat (length (chunk ++ [l])) >=? k)%Z; auto.
    constructor; auto. simpl. now destruct chunk.
Qed.

Lemma stream_chunks_loop_length (k : Z) (lines chunk : list bytes) (i : Z) :
  (0 < k)%Z -> (Z.of_nat (length chunk) < k)%Z ->
  Z.of_nat (length (stream_chunks_loop k chunk i lines))
  = ceil_div (Z.of_nat (length chunk) + Z.of_nat (length lines)) k.
Proof.
  intros Hk. revert chunk i.
  induction lines as [|l lines IH]; intros chunk i Hc; simpl length.
  - unfold ceil_div. simpl stream_chunks_loop.
    destruct chunk as [|c chunk]; simpl length.
    + symmetry. apply Z.div_small. lia.
    + apply Z.div_unique with (r := Z.of_nat (length chunk)); simpl in Hc; lia.
  - simpl stream_chunks_loop.
    assert (Hl : Z.of_nat (length (chunk ++ [l]))
                 = (Z.of_nat (length chunk) + 1)%Z)
      by (rewrite length_app; simpl; lia).
    destruct (Z.of_nat (length (chunk ++ [l])) >=? k)%Z eqn:E.
    + simpl length. rewrite Nat2Z.inj_succ, IH by (simpl; lia).
      simpl length. unfold ceil_div.
      assert (Z.of_nat (length chunk) + 1 = k)%Z by lia.
      replace (Z.of_nat (length chunk) + Z.of_nat (S (length lines)) + k - 1)%Z
        with (Z.of_nat 0 + Z.of_nat (length lines) + k - 1 + 1 * k)%Z by lia.
      rewrite Z.div_add by lia. lia.
    + rewrite IH by lia. rewrite Hl. f_equal. lia.
Qed.

(** ** One iteration of the main loop *)

Lemma shard_paths_nth (od base : text) (m n : nat) :
  n < m ->
  nth_error (shard_paths od base m) n = Some (get_shard_path od base n false).
Proof.
  intros H. unfold shard_paths.
  rewrite nth_error_map, nth_error_seq.
  destruct (Nat.ltb_spec n m); [reflexivity | lia].
Qed.

Lemma shard_paths_length (od base : text) (m : nat) :
  length (shard_paths od base m) = m.
Proof. unfold shard_paths. now rewrite length_map, length_seq. Qed.

Lemma shard_paths_S (od base : text) (m : nat) :
  shard_paths od base (S m)
  = shard_paths od base m ++ [get_shard_path od base m false].
Proof. unfold shard_paths. now rewrite seq_S, map_app. Qed.

Lemma tell_write (fh : file) (data : bytes) :
  tell (write fh data) = (tell fh + Z.of_nat (length data))%Z.
Proof. unfold tell, write. simpl. rewrite length_app. lia. Qed.

Lemma wf_init (od base : text) : wf od base (init_state od base).
Proof. repeat split. Qed.

(** ** Shard files only grow *)

Lemma extends_refl (fs : list file) : extends fs fs.
Proof. intros i f H. exists f, []. now rewrite app_nil_r. Qed.

Lemma extends_trans (fs1 fs2 fs3 : list file) :
  extends fs1 fs2 -> extends fs2 fs3 -> extends fs1 fs3.
Proof.
  intros H12 H23 i f H.
  destruct (H12 i f H) as (f2 & t2 & H2 & E2).
  destruct (H23 i f2 H2) as (f3 & t3 & H3 & E3).
  exists f3, (t2 ++ t3). split; [exact H3|].
  now rewrite E3, E2, app_assoc.
Qed.

Lemma extends_write (cl : list file) (fh : file) (data : bytes)
    (more : list file) :
  extends (cl ++ [fh]) (cl ++ [write fh data] ++ more).
Proof.
  intros i f H.
  destruct (Nat.lt_ge_cases i (length cl)) as [Hi|Hi].
  - rewrite nth_error_app1 in H by exact Hi.
    exists f, []. rewrite nth_error_app1 by exact Hi.
    now rewrite app_nil_r.
  - rewrite nth_error_app2 in H by exact Hi.
    rewrite nth_error_app2 by exact Hi.
    destruct (i - length cl) as [|k]; cbn in H |- *.
    + injection H as <-. now exists (write fh data), data.
    + now destruct k.
Qed.

Lemma holds_chunk_extends (fs fs' : list file) (e : idx_entry) (z : bytes) :
  extends fs fs' -> holds_chunk fs e z -> holds_chunk fs' e z.
Proof.
  intros Hx (f & before & after & Hn & Hd & Hs & Hl).
  destruct (Hx _ _ Hn) as (f' & tl & Hn' & Hd').
  exists f', before, (after ++ tl). repeat split; auto.
  now rewrite Hd', Hd, <- !app_assoc.
Qed.

(** The bytes a record points to are the bytes the shard holds there. *)
Lemma holds_chunk_range (fs : list file) (e : idx_entry) (z : bytes) :
  holds_chunk fs e z -> chunk_of_entry fs e = Some z.
Proof.
  intros (f & before & after & Hn & Hd & Hs & Hl).
  unfold chunk_of_entry, byte_range. rewrite Hn, Hd, Hs, Hl, !Nat2Z.id.
  rewrite skipn_app, skipn_all, Nat.sub_diag. cbn [skipn app].
  rewrite firstn_app, firstn_all, Nat.sub_diag. cbn [firstn].
  now rewrite app_nil_r.
Qed.

Lemma rename_nth (src dst : text) (fs : list file) (i : nat) (f : file) :
  nth_error fs i = Some f ->
  exists f', nth_error (rename src dst fs) i = Some f'
             /\ f_data f' = f_data f.
Proof.
  intros H. unfold rename. rewrite nth_error_map, H. cbn.
  destruct (Str.eqb (f_path f) src); eexists; split; reflexivity.
Qed.

Lemma holds_chunk_rename (src dst : text) (fs : list file) (e : idx_entry)
    (z : bytes) :
  holds_chunk fs e z -> holds_chunk (rename src dst fs) e z.
Proof.
  intros (f & before & after & Hn & Hd & Hs & Hl).
  destruct (rename_nth src dst _ _ _ Hn) as (f' & Hn' & Hd').
  exists f', before, after. repeat split; auto. now rewrite Hd'.
Qed.

Lemma wf_closed_length (od base : text) (st : state) :
  wf od base st -> length (closed st) = current_shard st.
Proof.
  intros (_ & _ & H). apply (f_equal (@length _)) in H.
  now rewrite length_map, shard_paths_length in H.
Qed.

Lemma Str_eqb_refl (a : text) : Str.eqb a a = true.
Proof. unfold Str.eqb. destruct (list_eq_dec N.eq_dec a a); congruence. Qed.

Section Loop.

Variable gzip_compress : bytes -> Z -> bytes.
Variables od base : text.
Variable target : size.
Variable level : Z.

(** What one iteration does to a state of the loop, for a chunk that has a
    first line. *)
Lemma loop_body_step (st : state) (first : bytes) (rest : list bytes) :
  wf od base st ->
  let data := gzip_compress (concat (first :: rest)) level in
  let fh := write (current_raw_fh st) data in
  let e := mkEntry (extract_prejson first)
             (remove_all
                (basename (get_shard_path od base (current_shard st) false))
                CDX_GZ)
             (tell (current_raw_fh st)) (Z.of_nat (length data))
             (current_shard st + 1) in
  exists st',
    loop_body gzip_compress od base target level st (first :: rest)
    = Ok (e, st')
    /\ wf od base st'
    /\ idxf st' ++ concat (idx_buffer st')
       = idxf st ++ concat (idx_buffer st) ++ format_idx e
    /\ (if reached (tell fh) target
        then current_shard st' = S (current_shard st)
             /\ closed st' = closed st ++ [fh]
             /\ current_raw_fh st'
                = open_wb (get_shard_path od base (S (current_shard st)) false)
             /\ idx_buffer st' = []
        else current_shard st' = current_shard st
             /\ closed st' = closed st
             /\ current_raw_fh st' = fh).
Proof.
  intros (Hc & Hp & Hcl) data fh e.
  unfold loop_body, index. cbn [nth_error bind].
  rewrite Hc, shard_paths_nth by lia. cbn [bind].
  fold data. fold fh.
  replace (tell fh - tell (current_raw_fh st))%Z
    with (Z.of_nat (length data)) by (unfold fh; rewrite tell_write; lia).
  fold e.
  set (buf := idx_buffer st ++ [format_idx e]).
  assert (Hb : concat buf = concat (idx_buffer st) ++ format_idx e)
    by (unfold buf; rewrite concat_app; simpl; now rewrite app_nil_r).
  assert (Hne : buf <> []) by (unfold buf; destruct (idx_buffer st); discriminate).
  clearbody buf.
  assert (Hps : shard_paths od base (S (current_shard st))
                ++ [get_shard_path od base (current_shard st + 1) false]
                = shard_paths od base (S (current_shard st + 1)))
    by (now rewrite Nat.add_1_r, <- shard_paths_S).
  assert (Hcs : map f_path (closed st ++ [fh])
                = shard_paths od base (current_shard st + 1))
    by (rewrite map_app, Hcl, Nat.add_1_r, shard_paths_S; cbn;
        now rewrite Hp).
  destruct (idx_buffer_size <=? length buf);
    destruct (reached (tell fh) target) eqn:R;
    [ | | destruct buf as [|b buf]; [congruence|] | ].
  all: eexists; split; [reflexivity|].
  all: cbn [created_shards current_shard current_raw_fh closed idx_buffer
            idxf concat f_path open_wb].
  all: rewrite ?app_nil_r, <- ?app_assoc, ?Hb, ?Nat.add_1_r in *.
  all: repeat split; auto.
  cbn [concat] in Hb. now rewrite Hb.
Qed.


(** The loop on a non-empty list of chunks, taken apart: the first chunk
    has a first line, its iteration succeeds from a state of the loop, and
    the rest of the run starts from the state it leaves. *)
Lemma run_loop_inv {st st' : state} {i : Z} {c : list bytes}
    {chunks : list (Z * list bytes)} {es : list idx_entry} :
  wf od base st ->
  run_loop gzip_compress od base target level st ((i, c) :: chunks)
  = Ok (es, st') ->
  exists first rest e st1 es1,
    c = first :: rest
    /\ loop_body gzip_compress od base target level st c = Ok (e, st1)
    /\ es = e :: es1
    /\ e_pre e = extract_prejson first
    /\ e_shard_name e
       = remove_all
           (basename (get_shard_path od base (current_shard st) false))
           CDX_GZ
    /\ e_start_offset e = tell (current_raw_fh st)
    /\ e_comp_len e = Z.of_nat (length (gzip_compress (concat c) level))
    /\ e_shard_number e = current_shard st + 1
    /\ wf od base st1
    /\ idxf st1 ++ concat (idx_buffer st1)
       = idxf st ++ concat (idx_buffer st) ++ format_idx e
    /\ (if reached (tell (write (current_raw_fh st)
                            (gzip_compress (concat c) level))) target
        then current_shard st1 = S (current_shard st)
             /\ closed st1
                = closed st ++ [write (current_raw_fh st)
                                  (gzip_compress (concat c) level)]
             /\ current_raw_fh st1
                = open_wb (get_shard_path od base (S (current_shard st)) false)
             /\ idx_buffer st1 = []
        else current_shard st1 = current_shard st
             /\ closed st1 = closed st
             /\ current_raw_fh st1
                = write (current_raw_fh st) (gzip_compress (concat c) level))
    /\ run_loop gzip_compress od base target level st1 chunks = Ok (es1, st').
Proof.
  intros Hwf H. destruct c as [|first rest].
  - cbn in H. discriminate.
  - destruct (loop_body_step st first rest Hwf) as (st1 & Hb & Hwf1 & Hi & Hr).
    cbn [run_loop] in H. rewrite Hb in H. cbn [bind] in H.
    destruct (run_loop gzip_compress od base target level st1 chunks)
      as [[es1 st2]|] eqn:E; cbn in H; [|discriminate].
    injection H as <- <-.
    eexists first, rest, _, st1, es1. repeat split; eauto; apply Hwf1.
Qed.

Lemma run_loop_total (chunks : list (Z * list bytes)) (st : state) :
  wf od base st -> Forall (fun c => snd c <> []) chunks ->
  exists es st',
    run_loop gzip_compress od base target level st chunks = Ok (es, st').
Proof.
  revert st; induction chunks as [|[i c] chunks IH]; intros st Hwf Hne.
  - now exists [], st.
  - inversion Hne as [|? ? Hc Hne']; subst. cbn in Hc.
    destruct c as [|first rest]; [congruence|].
    destruct (loop_body_step st first rest Hwf) as (st1 & Hb & Hwf1 & _).
    destruct (IH st1 Hwf1 Hne') as (es & st' & E).
    cbn [run_loop]. rewrite Hb. cbn [bind]. rewrite E. cbn.
    now eexists _, _.
Qed.

Lemma run_loop_wf (chunks : list (Z * list bytes)) (st st' : state)
    (es : list idx_entry) :
  wf od base st ->
  run_loop gzip_compress od base target level st chunks = Ok (es, st') ->
  wf od base st'.
Proof.
  revert st es; induction chunks as [|[i c] chunks IH]; intros st es Hwf H.
  - cbn in H. now injection H as <- <-.
  - destruct (run_loop_inv Hwf H)
      as (first & rest & e & st1 & es1 & _ & _ & _ & _ & _ & _ & _ & _ & Hwf1
          & _ & _ & Hrun).
    eauto.
Qed.

(** The index text written and still buffered grows by the lines of the
    records, in their order. *)
Lemma run_loop_idx (chunks : list (Z * list bytes)) (st st' : state)
    (es : list idx_entry) :
  wf od base st ->
  run_loop gzip_compress od base target level st chunks = Ok (es, st') ->
  idxf st' ++ concat (idx_buffer st')
  = idxf st ++ concat (idx_buffer st) ++ concat (map format_idx es).
Proof.
  revert st es; induction chunks as [|[i c] chunks IH]; intros st es Hwf H.
  - cbn in H. injection H as <- <-. cbn. now rewrite !app_nil_r.
  - destruct (run_loop_inv Hwf H)
      as (first & rest & e & st1 & es1 & _ & _ & -> & _ & _ & _ & _ & _ & Hwf1
          & Hidx & _ & Hrun).
    rewrite (IH _ _ Hwf1 Hrun), app_assoc, Hidx. cbn [map concat].
    now rewrite <- !app_assoc.
Qed.

(** One record per chunk, its key taken from the first line of the
    chunk. *)
Lemma run_loop_keys (chunks : list (Z * list bytes)) (st st' : state)
    (es : list idx_entry) :
  wf od base st ->
  run_loop gzip_compress od base target level st chunks = Ok (es, st') ->
  Forall2 (fun e c => exists first rest,
             snd c = first :: rest /\ e_pre e = extract_prejson first)
          es chunks.
Proof.
  revert st es; induction chunks as [|[i c] chunks IH]; intros st es Hwf H.
  - cbn in H. injection H as <- <-. constructor.
  - destruct (run_loop_inv Hwf H)
      as (first & rest & e & st1 & es1 & Hc & _ & -> & Hk & _ & _ & _ & _
          & Hwf1 & _ & _ & Hrun).
    constructor; [|eauto]. now exists first, rest.
Qed.

(** Every record of the loop points to the compressed bytes of its chunk,
    in the shard files as the loop leaves them. *)
Lemma run_loop_files (chunks : list (Z * list bytes)) (st st' : state)
    (es : list idx_entry) :
  wf od base st ->
  run_loop gzip_compress od base target level st chunks = Ok (es, st') ->
  extends (files_of st) (files_of st')
  /\ Forall2 (fun e c =>
                holds_chunk (files_of st') e
                            (gzip_compress (concat (snd c)) level))
             es chunks.
Proof.
  revert st es; induction chunks as [|[i c] chunks IH]; intros st es Hwf H.
  - cbn in H. injection H as <- <-. split; [apply extends_refl|constructor].
  - destruct (run_loop_inv Hwf H)
      as (first & rest & e & st1 & es1 & Hc & _ & -> & _ & _ & Hs & Hl & Hn
          & Hwf1 & _ & Hr & Hrun).
    destruct (IH _ _ Hwf1 Hrun) as (Hx & Hall).
    pose proof (wf_closed_length _ _ _ Hwf) as Hlen.
    set (data := gzip_compress (concat c) level) in *.
    assert (Hstep : extends (files_of st) (files_of st1)
                    /\ holds_chunk (files_of st1) e data).
    { assert (Hh : forall more,
                 holds_chunk (closed st ++ [write (current_raw_fh st) data]
                              ++ more) e data).
      { intros more.
        exists (write (current_raw_fh st) data), (f_data (current_raw_fh st)),
               [].
        rewrite Hn, Nat.add_sub, <- Hlen, nth_error_app2, Nat.sub_diag
          by lia.
        cbn. rewrite app_nil_r. repeat split; auto. }
      unfold files_of.
      destruct (reached _ target).
      - destruct Hr as (_ & -> & -> & _). rewrite <- app_assoc.
        split; [apply extends_write | apply Hh].
      - destruct Hr as (_ & -> & ->).
        split; [apply (extends_write _ _ _ []) | apply (Hh [])]. }
    destruct Hstep as (Hx1 & Hh1). split.
    + eapply extends_trans; eassumption.
    + constructor; [|exact Hall].
      eapply holds_chunk_extends; eassumption.
Qed.

(** A run over [pre ++ post] is a run over [pre] followed by a run over
    [post] from the state the first one leaves. *)
Lemma run_loop_app (pre post : list (Z * list bytes)) (st st' : state)
    (es : list idx_entry) :
  run_loop gzip_compress od base target level st (pre ++ post) = Ok (es, st')
  -> exists es1 st1 es2,
       run_loop gzip_compress od base target level st pre = Ok (es1, st1)
       /\ run_loop gzip_compress od base target level st1 post
          = Ok (es2, st')
       /\ es = es1 ++ es2
       /\ length es1 = length pre.
Proof.
  revert st es; induction pre as [|[i c] pre IH]; intros st es H.
  - exists [], st, es. now repeat split.
  - cbn [app run_loop] in H |- *.
    destruct (loop_body gzip_compress od base target level st c)
      as [[e s1]|]; cbn [bind] in H |- *; [|discriminate].
    destruct (run_loop gzip_compress od base target level s1 (pre ++ post))
      as [[es' s2]|] eqn:E; cbn in H; [|discriminate].
    injection H as <- <-.
    destruct (IH _ _ E) as (es1 & st1 & es2 & E1 & E2 & -> & Hlen).
    rewrite E1. cbn. exists (e :: es1), st1, es2.
    repeat split; auto. cbn. now rewrite Hlen.
Qed.

(** Shard numbers only go up, and a record carries the number of a shard
    that is listed when the loop ends. *)
Lemma run_loop_numbers (chunks : list (Z * list bytes)) (st st' : state)
    (es : list idx_entry) :
  wf od base st ->
  run_loop gzip_compress od base target level st chunks = Ok (es, st') ->
  current_shard st <= current_shard st'
  /\ Forall (fun e => current_shard st < e_shard_number e
                      /\ e_shard_number e <= S (current_shard st')) es.
Proof.
  revert st es; induction chunks as [|[i c] chunks IH]; intros st es Hwf H.
  - cbn in H. injection H as <- <-. split; [lia|constructor].
  - destruct (run_loop_inv Hwf H)
      as (first & rest & e & st1 & es1 & _ & _ & -> & _ & _ & _ & _ & Hn
          & Hwf1 & _ & Hr & Hrun).
    destruct (IH _ _ Hwf1 Hrun) as (Hle & Hall).
    assert (Hcur : current_shard st <= current_shard st1).
    { destruct (reached _ target);
        [destruct Hr as (-> & _) | destruct Hr as (-> & _)]; lia. }
    split; [lia|]. constructor; [lia|].
    eapply Forall_impl; [|exact Hall]. cbn. intros e' ?. lia.
Qed.

(** A record names its shard after the numbered path of its shard
    number. *)
Lemma run_loop_names (chunks : list (Z * list bytes)) (st st' : state)
    (es : list idx_entry) :
  wf od base st ->
  run_loop gzip_compress od base target level st chunks = Ok (es, st') ->
  Forall (fun e =>
            e_shard_name e
            = fst (loc_record
                     (get_shard_path od base (e_shard_number e - 1) false)))
         es.
Proof.
  revert st es; induction chunks as [|[i c] chunks IH]; intros st es Hwf H.
  - cbn in H. injection H as <- <-. constructor.
  - destruct (run_loop_inv Hwf H)
      as (first & rest & e & st1 & es1 & _ & _ & -> & _ & Hname & _ & _ & Hn
          & Hwf1 & _ & _ & Hrun).
    constructor; [|eauto].
    now rewrite Hn, Nat.add_sub, Hname.
Qed.

(** One record for each chunk. *)
Lemma run_loop_length (chunks : list (Z * list bytes)) (st st' : state)
    (es : list idx_entry) :
  wf od base st ->
  run_loop gzip_compress od base target level st chunks = Ok (es, st') ->
  length es = length chunks.
Proof.
  revert st es; induction chunks as [|[i c] chunks IH]; intros st es Hwf H.
  - cbn in H. now injection H as <- <-.
  - destruct (run_loop_inv Hwf H)
      as (first & rest & e & st1 & es1 & _ & _ & -> & _ & _ & _ & _ & _
          & Hwf1 & _ & _ & Hrun).
    cbn [length]. f_equal. eauto.
Qed.

(** The index text the loop has written and still holds in its buffer is
    the text the pipeline without a buffer writes for the same chunks,
    started at the shard and the offset of the loop. *)
Lemma run_loop_immediate (chunks : list (Z * list bytes)) (st st' : state)
    (es : list idx_entry) :
  wf od base st ->
  run_loop gzip_compress od base target level st chunks = Ok (es, st') ->
  idxf st' ++ concat (idx_buffer st')
  = index_written_immediately gzip_compress od base target level
      (current_shard st) (tell (current_raw_fh st))
      (idxf st ++ concat (idx_buffer st)) chunks.
Proof.
  revert st es; induction chunks as [|[i c] chunks IH]; intros st es Hwf H.
  - cbn in H. now injection H as <- <-.
  - destruct (run_loop_inv Hwf H)
      as (first & rest & e & st1 & es1 & Hc & _ & _ & Hk & Hname & Hs & Hl
          & Hn & Hwf1 & Hidx & Hr & Hrun).
    rewrite (IH _ _ Hwf1 Hrun), Hidx.
    cbn [index_written_immediately].
    assert (He : e = mkEntry (extract_prejson (hd [] c))
                       (fst (loc_record
                               (get_shard_path od base (current_shard st)
                                  false)))
                       (tell (current_raw_fh st))
                       (Z.of_nat (length (gzip_compress (concat c) level)))
                       (current_shard st + 1)).
    { destruct e as [k n s l m]. cbn in Hk, Hname, Hs, Hl, Hn.
      rewrite Hk, Hname, Hs, Hl, Hn, Hc. reflexivity. }
    rewrite <- He, <- app_assoc.
    rewrite tell_write in Hr.
    destruct (reached _ target).
    + destruct Hr as (-> & _ & -> & _).
      now rewrite Nat.add_1_r.
    + destruct Hr as (-> & _ & ->).
      now rewrite tell_write.
Qed.

End Loop.

(** ** The whole run *)

Section Run.

Variable gzip_compress : bytes -> Z -> bytes.
Variable abspath : text -> text.

(** A run never raises: its loop ends in a state [st], and what the run
    leaves is read off [st]. *)
Lemma cdxj_to_zipnum_spec (p : params) :
  let od := output_dir p in
  let base := base_of abspath p in
  exists es st o,
    loop_of gzip_compress abspath p = Ok (es, st)
    /\ wf od base st
    /\ cdxj_to_zipnum gzip_compress abspath p = Ok o
    /\ out_entries o = es
    /\ out_idx o = idxf st ++ concat (idx_buffer st)
    /\ out_created_shards o
       = (if renames od base st then [get_shard_path od base 0 true]
          else created_shards st)
    /\ out_shards o
       = (if renames od base st
          then rename (get_shard_path od base 0 false)
                      (get_shard_path od base 0 true) (files_of st)
          else files_of st)
    /\ out_loc o
       = concat (map (fun path => format_loc (loc_record path))
                     (out_created_shards o)).
Proof.
  intros od base.
  destruct (run_loop_total gzip_compress od base (target_of (shard_size_mb p))
              (compress_level p)
              (stream_chunks_from_input (input p) (chunk_size p))
              (init_state od base) (wf_init od base)
              (stream_chunks_loop_nonempty _ _ _ _)) as (es & st & E).
  pose proof (run_loop_wf _ _ _ _ _ _ _ _ _ (wf_init od base) E) as Hwf.
  exists es, st. unfold loop_of. fold od base. rewrite E.
  unfold cdxj_to_zipnum. fold od base. rewrite E. cbn [bind].
  assert (Hidx : match idx_buffer st with
                 | [] => idxf st
                 | _ :: _ => idxf st ++ concat (idx_buffer st)
                 end = idxf st ++ concat (idx_buffer st))
    by (destruct (idx_buffer st); cbn [concat]; now rewrite ?app_nil_r).
  rewrite Hidx. unfold renames.
  assert (Hc := proj1 Hwf). rewrite Hc.
  destruct (current_shard st) as [|n].
  - cbn [shard_paths seq map Nat.eqb andb].
    destruct (endswith (get_shard_path od base 0 false) (base ++ CDX_GZ));
      cbn [negb]; eexists; repeat split; auto; apply Hwf.
  - rewrite shard_paths_S, shard_paths_S. cbn [Nat.eqb andb].
    destruct (shard_paths od base n) as [|p0 [|p1 ps]];
      cbn [app]; eexists; repeat split; auto; apply Hwf.
Qed.

(** ** Index emitter *)

Lemma write_each_immediately_from (es : list idx_entry) (acc : text) :
  fold_left (fun idxf e => idxf ++ format_idx e) es acc
  = acc ++ concat (map format_idx es).
Proof.
  revert acc; induction es as [|e es IH]; intros acc; cbn.
  - now rewrite app_nil_r.
  - now rewrite IH, <- app_assoc.
Qed.

(** The index file of a run is the text of its records, in their order. *)
Lemma out_idx_records (p : params) (o : output) :
  cdxj_to_zipnum gzip_compress abspath p = Ok o ->
  out_idx o = concat (map format_idx (out_entries o)).
Proof.
  intros Ho.
  destruct (cdxj_to_zipnum_spec p)
    as (es & st & o' & Hl & Hwf & Ho' & He & Hi & _).
  rewrite Ho in Ho'. injection Ho' as <-.
  rewrite Hi, He.
  apply (run_loop_idx _ _ _ _ _ _ _ _ _ (wf_init _ _)) in Hl.
  exact Hl.
Qed.

(** C7. The index file written in batches (a buffer of up to 100 lines,
    flushed when full, before a shard is closed and at the end of the
    input) is byte for byte the index file that the pipeline without a
    buffer writes for the chunks of the input, one write per chunk in
    chunk order, starting at shard 1, offset 0 of an empty file.  The run
    forms one record for each chunk, and its file is also the text of one
    write per record it formed: no record is lost, doubled or moved. *)
Theorem batched_index_is_immediate_index (p : params) :
  exists o,
    cdxj_to_zipnum gzip_compress abspath p = Ok o
    /\ out_idx o
       = index_written_immediately gzip_compress (output_dir p)
           (base_of abspath p) (target_of (shard_size_mb p))
           (compress_level p) 0 0 []
           (stream_chunks_from_input (input p) (chunk_size p))
    /\ length (out_entries o)
       = length (stream_chunks_from_input (input p) (chunk_size p))
    /\ out_idx o = write_each_immediately (out_entries o).
Proof.
  destruct (cdxj_to_zipnum_spec p)
    as (es & st & o & Hl & _ & Ho & He & Hi & _).
  exists o. split; [exact Ho|]. split; [|split].
  - rewrite Hi.
    exact (run_loop_immediate _ _ _ _ _ _ _ _ _ (wf_init _ _) Hl).
  - rewrite He.
    exact (run_loop_length _ _ _ _ _ _ _ _ _ (wf_init _ _) Hl).
  - unfold write_each_immediately. rewrite write_each_immediately_from.
    now apply out_idx_records with (p := p).
Qed.

(** C10. The key of the index record of a chunk is the key extractor
    applied to the first line of that chunk: record by record, in chunk
    order, whatever the other lines are. *)
Theorem index_key_from_first_line (p : params) :
  exists o,
    cdxj_to_zipnum gzip_compress abspath p = Ok o
    /\ Forall2 (fun e c => exists first rest,
                  snd c = first :: rest /\ e_pre e = extract_prejson first)
               (out_entries o)
               (stream_chunks_from_input (input p) (chunk_size p)).
Proof.
  destruct (cdxj_to_zipnum_spec p)
    as (es & st & o & Hl & _ & Ho & He & _).
  exists o. split; [exact Ho|]. rewrite He.
  exact (run_loop_keys _ _ _ _ _ _ _ _ _ (wf_init _ _) Hl).
Qed.

(** The records of a run point to the compressed bytes of their chunks in
    the shard files the run leaves. *)
Lemma out_entries_hold_chunks (p : params) (o : output) :
  cdxj_to_zipnum gzip_compress abspath p = Ok o ->
  Forall2 (fun e c =>
             holds_chunk (out_shards o) e
               (gzip_compress (concat (snd c)) (compress_level p)))
          (out_entries o)
          (stream_chunks_from_input (input p) (chunk_size p)).
Proof.
  intros Ho.
  destruct (cdxj_to_zipnum_spec p)
    as (es & st & o' & Hl & Hwf & Ho' & He & _ & _ & Hs & _).
  rewrite Ho in Ho'. injection Ho' as <-. rewrite He, Hs.
  destruct (run_loop_files _ _ _ _ _ _ _ _ _ (wf_init _ _) Hl) as (_ & Hall).
  destruct (renames _ _ st); [|exact Hall].
  eapply Forall2_impl; [|exact Hall].
  intros e c. apply holds_chunk_rename.
Qed.

(** ** Chunks, compression and the input *)

(** C1. Take the index records of a run in their order, read for each the
    byte range it gives in its shard file, and decompress it: the range is
    the compressed chunk, it decompresses to the lines of the chunk, and the
    results put end to end are the input, byte for byte.  This holds for
    every chunk size. *)
Theorem chunks_decompress_to_input
    (gzip_decompress : bytes -> option bytes) (p : params) :
  (forall d, gzip_decompress (gzip_compress d (compress_level p)) = Some d) ->
  exists o,
    cdxj_to_zipnum gzip_compress abspath p = Ok o
    /\ Forall2 (fun e c =>
                  exists z,
                    chunk_of_entry (out_shards o) e = Some z
                    /\ z = gzip_compress (concat (snd c)) (compress_level p)
                    /\ gzip_decompress z = Some (concat (snd c)))
               (out_entries o)
               (stream_chunks_from_input (input p) (chunk_size p))
    /\ concat (map (fun c => concat (snd c))
                   (stream_chunks_from_input (input p) (chunk_size p)))
       = input p.
Proof.
  intros Hgz.
  destruct (cdxj_to_zipnum_spec p) as (es & st & o & _ & _ & Ho & _).
  exists o. split; [exact Ho|]. split.
  - eapply Forall2_impl; [|exact (out_entries_hold_chunks p o Ho)].
    intros e c H. eexists. split; [apply holds_chunk_range, H|].
    split; [reflexivity | apply Hgz].
  - unfold stream_chunks_from_input.
    rewrite stream_chunks_loop_concat. cbn. apply read_lines_concat.
Qed.

(** ** Offsets and lengths *)

(** C2. For the record of every chunk of a run: its start offset is the
    number of bytes written to the open shard file when the loop reaches
    the chunk, its length is the number of bytes of the compressed chunk,
    their sum is the size of that file once the chunk is written; and in
    the shard files the run leaves, the file with the record's shard number
    holds the compressed chunk right after its first start-offset bytes. *)
Theorem index_offsets_are_shard_sizes (p : params)
    (pre post : list (Z * list bytes)) (i : Z) (c : list bytes) :
  stream_chunks_from_input (input p) (chunk_size p) = pre ++ (i, c) :: post ->
  exists o es st e,
    cdxj_to_zipnum gzip_compress abspath p = Ok o
    /\ run_loop gzip_compress (output_dir p) (base_of abspath p)
         (target_of (shard_size_mb p)) (compress_level p)
         (init_state (output_dir p) (base_of abspath p)) pre = Ok (es, st)
    /\ nth_error (out_entries o) (length pre) = Some e
    /\ e_shard_number e = current_shard st + 1
    /\ e_start_offset e = tell (current_raw_fh st)
    /\ e_comp_len e
       = Z.of_nat (length (gzip_compress (concat c) (compress_level p)))
    /\ (e_start_offset e + e_comp_len e)%Z
       = tell (write (current_raw_fh st)
                     (gzip_compress (concat c) (compress_level p)))
    /\ holds_chunk (out_shards o) e
         (gzip_compress (concat c) (compress_level p)).
Proof.
  intros Hsplit.
  destruct (cdxj_to_zipnum_spec p)
    as (es & st & o & Hl & _ & Ho & He & _).
  pose proof (out_entries_hold_chunks p o Ho) as Hall.
  unfold loop_of in Hl. rewrite Hsplit in Hl, Hall.
  destruct (run_loop_app _ _ _ _ _ _ _ _ _ _ Hl)
    as (es1 & st1 & es2 & E1 & E2 & -> & Hlen).
  pose proof (run_loop_wf _ _ _ _ _ _ _ _ _ (wf_init _ _) E1) as Hwf1.
  destruct (run_loop_inv _ _ _ _ _ Hwf1 E2)
    as (first & rest & e & st2 & es3 & _ & _ & -> & _ & _ & Hs & Hc & Hn & _).
  exists o, es1, st1, e. rewrite He.
  repeat split; auto.
  - now rewrite nth_error_app2, <- Hlen, Nat.sub_diag by lia.
  - rewrite tell_write. lia.
  - rewrite He in Hall. apply Forall2_app_inv_r in Hall.
    destruct Hall as (l1 & l2 & H1 & H2 & Hes).
    apply Forall2_length in H1.
    assert (Hl1 : length l1 = length es1) by lia.
    apply (f_equal (skipn (length es1))) in Hes.
    rewrite skipn_app, skipn_all, Nat.sub_diag in Hes. cbn in Hes.
    rewrite <- Hl1, skipn_app, skipn_all, Nat.sub_diag in Hes. cbn in Hes.
    subst l2. now inversion H2.
Qed.

(** ** Number of records *)

(** C3. With a positive chunk size, a run writes as many index records as
    there are chunks, and there are [ceil(total_lines / chunk_size)] chunks.
    An input of no lines gives no record and an empty index, and still one
    shard file, empty: the one opened before the loop. *)
Theorem records_chunks_and_lines (p : params) :
  (0 < chunk_size p)%Z ->
  exists o,
    cdxj_to_zipnum gzip_compress abspath p = Ok o
    /\ out_idx o = concat (map format_idx (out_entries o))
    /\ length (out_entries o)
       = length (stream_chunks_from_input (input p) (chunk_size p))
    /\ Z.of_nat (length (stream_chunks_from_input (input p) (chunk_size p)))
       = ceil_div (Z.of_nat (length (read_lines (input p)))) (chunk_size p)
    /\ (length (read_lines (input p)) = 0 ->
        out_entries o = [] /\ out_idx o = []
        /\ exists path,
             out_shards o = [mkFile path []]
             /\ out_created_shards o = [path]).
Proof.
  intros Hk.
  destruct (cdxj_to_zipnum_spec p)
    as (es & st & o & Hl & Hwf & Ho & He & Hi & Hcs & Hs & _).
  exists o. split; [exact Ho|].
  split; [exact (out_idx_records p o Ho)|]. split; [|split].
  - rewrite He. unfold loop_of in Hl.
    exact (Forall2_length
             (run_loop_keys _ _ _ _ _ _ _ _ _ (wf_init _ _) Hl)).
  - unfold stream_chunks_from_input.
    now rewrite stream_chunks_loop_length by (cbn; lia).
  - intros Hz. apply length_zero_iff_nil in Hz.
    unfold loop_of, stream_chunks_from_input in Hl. rewrite Hz in Hl.
    cbn in Hl. injection Hl as <- <-.
    rewrite He, Hi, Hcs, Hs.
    split; [reflexivity|]. split; [reflexivity|].
    destruct (renames _ _ _).
    + eexists; split; [|reflexivity].
      unfold files_of, rename, init_state.
      cbn [closed current_raw_fh app map open_wb f_path f_data].
      now rewrite Str_eqb_refl.
    + eexists; split; reflexivity.
Qed.

(** ** A rollover at the last chunk *)

(** C9. When the write of the last chunk of the input brings its shard to
    the target size, the run leaves one more shard after it: an empty file
    under the next numbered path, which is the path of no earlier shard.
    That file is in the shard list, which therefore has at least two
    numbered paths and is not renamed; it has its line in the location
    file, the last one; and every index record carries a smaller shard
    number and the name of another shard. *)
Theorem rollover_at_last_chunk (p : params) (o : output)
    (es : list idx_entry) (e : idx_entry) :
  cdxj_to_zipnum gzip_compress abspath p = Ok o ->
  out_entries o = es ++ [e] ->
  reached (e_start_offset e + e_comp_len e) (target_of (shard_size_mb p))
  = true ->
  let od := output_dir p in
  let base := base_of abspath p in
  let n := e_shard_number e in
  nth_error (out_shards o) n = Some (mkFile (get_shard_path od base n false) [])
  /\ ~ In (get_shard_path od base n false) (shard_paths od base n)
  /\ length (out_shards o) = S n
  /\ out_created_shards o = shard_paths od base (S n)
  /\ 2 <= length (out_created_shards o)
  /\ out_loc o
     = concat (map (fun path => format_loc (loc_record path))
                   (shard_paths od base n))
       ++ format_loc (loc_record (get_shard_path od base n false))
  /\ Forall (fun e' =>
               e_shard_number e' < S n
               /\ e_shard_name e'
                  <> fst (loc_record (get_shard_path od base n false)))
            (out_entries o).
Proof.
  intros Ho Hes Hreach od base n.
  destruct (cdxj_to_zipnum_spec p)
    as (es0 & st & o' & Hl & Hwf & Ho' & He & _ & Hcs & Hs & Hloc).
  rewrite Ho in Ho'. injection Ho' as <-. fold od base in Hwf, Hcs, Hs.
  unfold loop_of in Hl. fold od base in Hl.
  pose proof (Forall2_length
                (run_loop_keys _ _ _ _ _ _ _ _ _ (wf_init _ _) Hl)) as Hlen.
  rewrite <- He, Hes in Hlen.
  destruct (exists_last (l := stream_chunks_from_input (input p) (chunk_size p)))
    as (pre & [i c] & Hsplit).
  { intros E. rewrite E, length_app in Hlen. cbn in Hlen. lia. }
  pose proof (run_loop_names _ _ _ _ _ _ _ _ _ (wf_init _ _) Hl) as Hnam.
  rewrite <- He, Hes in Hnam.
  rewrite Hsplit in Hl.
  destruct (run_loop_app _ _ _ _ _ _ _ _ _ _ Hl)
    as (es1 & st1 & es2 & E1 & E2 & Hcat & Hlen1).
  pose proof (run_loop_wf _ _ _ _ _ _ _ _ _ (wf_init _ _) E1) as Hwf1.
  destruct (run_loop_numbers _ _ _ _ _ _ _ _ _ (wf_init _ _) E1)
    as (_ & Hnum1).
  destruct (run_loop_inv _ _ _ _ _ Hwf1 E2)
    as (first & rest & e1 & st2 & es3 & _ & _ & -> & _ & _ & Hso & Hcl & Hn
        & _ & _ & Hr & Hrun).
  cbn in Hrun. injection Hrun as <- <-.
  rewrite <- He, Hes in Hcat. apply app_inj_tail in Hcat.
  destruct Hcat as (<- & <-).
  rewrite tell_write, <- Hso, <- Hcl, Hreach in Hr.
  destruct Hr as (Hcur & Hclosed & Hfh & _).
  assert (Hn' : current_shard st2 = n) by (unfold n; lia).
  assert (Hren : renames od base st2 = false)
    by (unfold renames; now rewrite Hcur).
  rewrite Hren in Hcs, Hs. rewrite Hloc, Hcs, Hs, (proj1 Hwf), Hn'.
  unfold files_of. rewrite Hfh, Hclosed.
  pose proof (wf_closed_length _ _ _ Hwf1) as Hcl1.
  assert (Hsn : S (current_shard st1) = n) by lia.
  rewrite Hsn. split; [|split].
  - rewrite nth_error_app2 by (rewrite length_app; cbn; lia).
    rewrite length_app. cbn. now replace (n - _) with 0 by lia.
  - intros Hin. unfold shard_paths in Hin. apply in_map_iff in Hin.
    destruct Hin as (k & Hk & Hin). apply get_shard_path_inj in Hk.
    apply in_seq in Hin. lia.
  - repeat split.
    + rewrite !length_app. cbn. lia.
    + rewrite shard_paths_length. lia.
    + rewrite shard_paths_S, map_app, concat_app. cbn. now rewrite app_nil_r.
    + assert (HA : Forall (fun e' => 0 < e_shard_number e' < S n)
                          (es ++ [e])).
      { apply Forall_app. split.
        - eapply Forall_impl; [|exact Hnum1]. cbn. intros e' ?. lia.
        - constructor; [lia|constructor]. }
      rewrite Hes. rewrite Forall_forall in *. intros e' Hin.
      specialize (HA e' Hin). specialize (Hnam e' Hin).
      split; [lia|]. rewrite Hnam. intros E.
      apply shard_name_inj in E. lia.
Qed.

(** ** Shard names *)

(** Every index record names its shard after the numbered path its shard
    was opened under; when the run leaves two shards or more, that is the
    path in the shard list, the one the location file gives. *)
Lemma index_names_are_numbered_names (p : params) (o : output) :
  cdxj_to_zipnum gzip_compress abspath p = Ok o ->
  let od := output_dir p in
  let base := base_of abspath p in
  Forall (fun e =>
            0 < e_shard_number e <= length (out_created_shards o)
            /\ e_shard_name e
               = fst (loc_record
                        (get_shard_path od base (e_shard_number e - 1) false)))
         (out_entries o)
  /\ (2 <= length (out_created_shards o) ->
      out_created_shards o
      = shard_paths od base (length (out_created_shards o))).
Proof.
  intros Ho od base.
  destruct (cdxj_to_zipnum_spec p)
    as (es & st & o' & Hl & Hwf & Ho' & He & _ & Hcs & _).
  rewrite Ho in Ho'. injection Ho' as <-.
  fold od base in Hwf, Hcs. unfold loop_of in Hl. fold od base in Hl.
  assert (Hlen : length (out_created_shards o) = S (current_shard st)).
  { rewrite Hcs. destruct (renames od base st) eqn:R.
    - unfold renames in R. apply andb_prop in R. destruct R as (R & _).
      apply Nat.eqb_eq in R. now rewrite R.
    - now rewrite (proj1 Hwf), shard_paths_length. }
  split.
  - rewrite He, Hlen.
    destruct (run_loop_numbers _ _ _ _ _ _ _ _ _ (wf_init _ _) Hl)
      as (_ & Hnum).
    pose proof (run_loop_names _ _ _ _ _ _ _ _ _ (wf_init _ _) Hl) as Hnam.
    rewrite Forall_forall in *. intros e Hin.
    specialize (Hnum e Hin). specialize (Hnam e Hin). cbn in Hnum.
    split; [lia | exact Hnam].
  - intros H2. rewrite Hlen in *. rewrite Hcs.
    assert (R : renames od base st = false)
      by (unfold renames;
          destruct (Nat.eqb_spec (current_shard st) 0); [lia|reflexivity]).
    rewrite R. apply Hwf.
Qed.

(** C4, at the run [run_single] (one shard, three chunks): the index
    records name the shard [idx-01], while the only shard file the run
    leaves is [out/idx.cdx.gz], which the location file lists under the
    name [idx]. *)
Theorem single_shard_index_names_numbered_file :
  exists o,
    cdxj_to_zipnum stored_compress (fun x => x) run_single = Ok o
    /\ map e_shard_name (out_entries o)
       = [lit "idx-01"; lit "idx-01"; lit "idx-01"]
    /\ map f_path (out_shards o) = [lit "out/idx.cdx.gz"]
    /\ map loc_record (out_created_shards o)
       = [(lit "idx", lit "idx.cdx.gz")].
Proof. eexists. split; [vm_compute; reflexivity|]. now vm_compute. Qed.

(** ** The single shard *)

(** When the numbered path of the first shard does not end with
    [<base>.cdx.gz], a run leaves exactly one shard exactly when its shard
    list is the one unnumbered path, and the location record is then made
    from that path. *)
Lemma single_shard_is_unnumbered (p : params) (o : output) :
  cdxj_to_zipnum gzip_compress abspath p = Ok o ->
  let od := output_dir p in
  let base := base_of abspath p in
  endswith (get_shard_path od base 0 false) (base ++ CDX_GZ) = false ->
  (length (out_created_shards o) = 1
   <-> out_created_shards o = [get_shard_path od base 0 true])
  /\ (length (out_created_shards o) = 1 ->
      map f_path (out_shards o) = [get_shard_path od base 0 true]
      /\ out_loc o
         = format_loc (loc_record (get_shard_path od base 0 true))).
Proof.
  intros Ho od base Hend.
  destruct (cdxj_to_zipnum_spec p)
    as (es & st & o' & _ & Hwf & Ho' & _ & _ & Hcs & Hs & Hloc).
  rewrite Ho in Ho'. injection Ho' as <-.
  fold od base in Hwf, Hcs, Hs.
  pose proof (wf_closed_length _ _ _ Hwf) as Hcl.
  destruct Hwf as (Hc & Hp & _).
  unfold renames in Hcs, Hs. rewrite Hend in Hcs, Hs. cbn [negb] in Hcs, Hs.
  rewrite andb_true_r in Hcs, Hs.
  destruct (Nat.eqb_spec (current_shard st) 0) as [E0|E0].
  - split; [rewrite Hcs; now split|]. intros _.
    rewrite Hloc, Hcs, Hs. cbn [map concat]. rewrite app_nil_r.
    split; [|reflexivity].
    unfold files_of. rewrite E0 in Hcl, Hp.
    destruct (closed st); [|discriminate]. cbn [app].
    unfold rename. cbn [map]. rewrite Hp.
    now rewrite Str_eqb_refl.
  - rewrite Hcs, Hc, shard_paths_length.
    split; [split; [lia|]|lia].
    intros E. apply (f_equal (@length _)) in E.
    rewrite shard_paths_length in E. cbn in E. lia.
Qed.

(** C5, at the run [run_base_1] (one shard, base name [1]): the run leaves
    exactly one shard and its file keeps the numbered name
    [out/1-01.cdx.gz], because that path ends with [1.cdx.gz]. *)
Theorem single_shard_base_1_keeps_number :
  exists o,
    cdxj_to_zipnum stored_compress (fun x => x) run_base_1 = Ok o
    /\ out_created_shards o = [lit "out/1-01.cdx.gz"]
    /\ map f_path (out_shards o) = [lit "out/1-01.cdx.gz"]
    /\ map loc_record (out_created_shards o)
       = [(lit "1-01", lit "1-01.cdx.gz")]
    /\ get_shard_path (output_dir run_base_1) (lit "1") 0 true
       = lit "out/1.cdx.gz".
Proof. eexists. split; [vm_compute; reflexivity|]. now vm_compute. Qed.

(** ** Chunk size *)

(** C6 as stated fails: with a chunk size of 0 the command line is
    accepted and the run writes its two records. *)
Lemma chunk_size_0_is_accepted :
  (a_chunk_size args_chunk_0 <= 0)%Z
  /\ exists o,
       main stored_compress (fun x => x) args_chunk_0 = Ok o
       /\ length (out_entries o) = 2.
Proof.
  split; [cbn; lia|]. eexists. split; [vm_compute; reflexivity|].
  reflexivity.
Qed.

(** C6, amended.  A chunk size of 0 or less is not rejected: argument
    parsing rejects the command line with such a chunk size exactly when
    it rejects it with a chunk size of 1, and the run then gives what the
    run with a chunk size of 1 gives, every line of the input a chunk of
    its own. *)
Theorem nonpositive_chunk_size_runs_as_1 (a : args) :
  (a_chunk_size a <= 0)%Z ->
  (forall e, parse_args a = Raise e
             <-> parse_args (with_chunk_size a 1) = Raise e)
  /\ main gzip_compress abspath a
     = main gzip_compress abspath (with_chunk_size a 1)
  /\ stream_chunks_from_input (a_input a) (a_chunk_size a)
     = stream_chunks_from_input (a_input a) 1
  /\ Forall (fun c => length (snd c) = 1)
            (stream_chunks_from_input (a_input a) (a_chunk_size a)).
Proof.
  intros Hk.
  assert (Hs : stream_chunks_from_input (a_input a) (a_chunk_size a)
               = stream_chunks_from_input (a_input a) 1)
    by (unfold stream_chunks_from_input;
        apply stream_chunks_loop_small; lia).
  split; [|split; [|split]].
  - intros e. unfold parse_args, with_chunk_size.
    cbn [a_compress_level].
    destruct ((1 <=? a_compress_level a) && (a_compress_level a <? 10))%Z;
      split; intros H; (discriminate H || exact H).
  - unfold main, parse_args, with_chunk_size.
    cbn [a_compress_level a_input a_output a_shard_size a_single_shard
         a_chunk_size a_base a_idx_file a_loc_file].
    destruct ((1 <=? a_compress_level a) && (a_compress_level a <? 10))%Z;
      cbn [bind]; [|reflexivity].
    unfold cdxj_to_zipnum, base_of.
    cbn [a_compress_level a_input a_output a_shard_size a_single_shard
         a_chunk_size a_base a_idx_file a_loc_file
         output_dir input shard_size_mb chunk_size base idx_name loc_name
         compress_level].
    now rewrite Hs.
  - exact Hs.
  - rewrite Hs. apply stream_chunks_loop_one.
Qed.

End Run.

(** ** The properties on the sample runs *)

Lemma chunks_decompress_to_input_witness :
  (forall d,
     stored_decompress (stored_compress d (compress_level run_single))
     = Some d)
  /\ exists o,
       cdxj_to_zipnum stored_compress (fun x => x) run_single = Ok o
       /\ Forall2 (fun e c =>
                     exists z,
                       chunk_of_entry (out_shards o) e = Some z
                       /\ z = stored_compress (concat (snd c))
                                (compress_level run_single)
                       /\ stored_decompress z = Some (concat (snd c)))
                  (out_entries o)
                  (stream_chunks_from_input (input run_single)
                     (chunk_size run_single))
       /\ concat (map (fun c => concat (snd c))
                      (stream_chunks_from_input (input run_single)
                         (chunk_size run_single)))
          = input run_single.
Proof.
  split; [reflexivity|].
  apply (chunks_decompress_to_input stored_compress (fun x => x)
           stored_decompress run_single).
  reflexivity.
Defined.

Lemma index_offsets_are_shard_sizes_witness :
  stream_chunks_from_input (input run_single) (chunk_size run_single)
  = firstn 1 seven_by_3 ++ (fst second_chunk, snd second_chunk)
    :: skipn 2 seven_by_3
  /\ exists o es st e,
       cdxj_to_zipnum stored_compress (fun x => x) run_single = Ok o
       /\ run_loop stored_compress (output_dir run_single)
            (base_of (fun x => x) run_single)
            (target_of (shard_size_mb run_single))
            (compress_level run_single)
            (init_state (output_dir run_single)
               (base_of (fun x => x) run_single))
            (firstn 1 seven_by_3) = Ok (es, st)
       /\ nth_error (out_entries o) (length (firstn 1 seven_by_3)) = Some e
       /\ e_shard_number e = current_shard st + 1
       /\ e_start_offset e = tell (current_raw_fh st)
       /\ e_comp_len e
          = Z.of_nat
              (length (stored_compress (concat (snd second_chunk))
                         (compress_level run_single)))
       /\ (e_start_offset e + e_comp_len e)%Z
          = tell (write (current_raw_fh st)
                    (stored_compress (concat (snd second_chunk))
                       (compress_level run_single)))
       /\ holds_chunk (out_shards o) e
            (stored_compress (concat (snd second_chunk))
               (compress_level run_single)).
Proof.
  split; [vm_compute; reflexivity|].
  apply (index_offsets_are_shard_sizes stored_compress (fun x => x)
           run_single (firstn 1 seven_by_3) (skipn 2 seven_by_3)
           (fst second_chunk) (snd second_chunk)).
  vm_compute; reflexivity.
Defined.

Lemma records_chunks_and_lines_witness :
  (0 < chunk_size run_single)%Z
  /\ exists o,
       cdxj_to_zipnum stored_compress (fun x => x) run_single = Ok o
       /\ out_idx o = concat (map format_idx (out_entries o))
       /\ length (out_entries o)
          = length (stream_chunks_from_input (input run_single)
                      (chunk_size run_single))
       /\ Z.of_nat
            (length (stream_chunks_from_input (input run_single)
                       (chunk_size run_single)))
          = ceil_div (Z.of_nat (length (read_lines (input run_single))))
                     (chunk_size run_single)
       /\ (length (read_lines (input run_single)) = 0 ->
           out_entries o = [] /\ out_idx o = []
           /\ exists path,
                out_shards o = [mkFile path []]
                /\ out_created_shards o = [path]).
Proof.
  split; [reflexivity|].
  apply (records_chunks_and_lines stored_compress (fun x => x) run_single).
  reflexivity.
Defined.

Lemma nonpositive_chunk_size_runs_as_1_witness :
  (a_chunk_size args_chunk_0 <= 0)%Z
  /\ (forall e, parse_args args_chunk_0 = Raise e
                <-> parse_args (with_chunk_size args_chunk_0 1) = Raise e)
  /\ main stored_compress (fun x => x) args_chunk_0
     = main stored_compress (fun x => x) (with_chunk_size args_chunk_0 1)
  /\ stream_chunks_from_input (a_input args_chunk_0)
       (a_chunk_size args_chunk_0)
     = stream_chunks_from_input (a_input args_chunk_0) 1
  /\ Forall (fun c => length (snd c) = 1)
            (stream_chunks_from_input (a_input args_chunk_0)
               (a_chunk_size args_chunk_0)).
Proof.
  split; [cbn; lia|].
  apply (nonpositive_chunk_size_runs_as_1 stored_compress (fun x => x)
           args_chunk_0).
  cbn; lia.
Defined.

Lemma extract_prejson_key_witness :
  extract_prejson line_with_json = strip (lit "com,example)/ 2020 ")
  /\ extract_prejson line_without_json = strip (decode line_without_json).
Proof.
  split.
  - apply (proj1 (proj2 (extract_prejson_key line_with_json))
             (lit "com,example)/ 2020 ") (skipn 20 (decode line_with_json))).
    + vm_compute; reflexivity.
    + vm_compute. intros H.
      repeat (destruct H as [H|H]; [discriminate H|]). exact H.
  - apply (proj1 (proj2 (proj2 (extract_prejson_key line_without_json)))).
    vm_compute. intros H.
    repeat (destruct H as [H|H]; [discriminate H|]). exact H.
Defined.

Lemma rollover_at_last_chunk_witness :
  (cdxj_to_zipnum stored_compress (fun x => x) run_rollover
   = Ok rollover_output
   /\ out_entries rollover_output
      = removelast (out_entries rollover_output)
        ++ [last (out_entries rollover_output) (mkEntry [] [] 0 0 0)]
   /\ reached
        (e_start_offset
           (last (out_entries rollover_output) (mkEntry [] [] 0 0 0))
         + e_comp_len
             (last (out_entries rollover_output) (mkEntry [] [] 0 0 0)))
        (target_of (shard_size_mb run_rollover)) = true)
  /\ nth_error (out_shards rollover_output) 3
     = Some (mkFile (lit "out/idx-04.cdx.gz") [])
  /\ length (out_created_shards rollover_output) = 4
  /\ Forall (fun e =>
               e_shard_number e < 4 /\ e_shard_name e <> lit "idx-04")
            (out_entries rollover_output).
Proof.
  assert (H1 : cdxj_to_zipnum stored_compress (fun x => x) run_rollover
               = Ok rollover_output) by (vm_compute; reflexivity).
  assert (H2 : out_entries rollover_output
               = removelast (out_entries rollover_output)
                 ++ [last (out_entries rollover_output)
                          (mkEntry [] [] 0 0 0)])
    by (vm_compute; reflexivity).
  assert (H3 : reached
                 (e_start_offset
                    (last (out_entries rollover_output)
                          (mkEntry [] [] 0 0 0))
                  + e_comp_len
                      (last (out_entries rollover_output)
                            (mkEntry [] [] 0 0 0)))
                 (target_of (shard_size_mb run_rollover)) = true)
    by (vm_compute; reflexivity).
  split; [auto|].
  destruct (rollover_at_last_chunk stored_compress (fun x => x) run_rollover
              rollover_output _ _ H1 H2 H3)
    as (Hn & _ & _ & Hc & _ & _ & Hall).
  split; [exact Hn|]. split; [|exact Hall].
  rewrite Hc. apply shard_paths_length.
Defined.

(** * Further properties *)

(** ** The lines of the input *)

Lemma not_in_rev (x : byte) (l : bytes) : ~ In x l -> ~ In x (rev l).
Proof. intros H Hin. apply H. apply in_rev. exact Hin. Qed.

Lemma read_lines_from_shape (s cur : bytes) :
  ~ In NL cur ->
  forall ls l,
    read_lines_from cur s = ls ++ [l] ->
    Forall terminated ls /\ (terminated l \/ unterminated l).
Proof.
  revert cur; induction s as [|b s IH]; intros cur Hcur ls l E;
    cbn [read_lines_from] in E.
  - destruct cur as [|c cur]; [now destruct ls|].
    destruct ls as [|x ls]; [|now destruct ls].
    injection E as <-. split; [constructor|]. right. split.
    + intros E. symmetry in E. now apply app_cons_not_nil in E.
    + now apply (not_in_rev NL (c :: cur)).
  - destruct (Byte.eqb b NL) eqn:Hb.
    + apply Byte.byte_dec_bl in Hb. subst b.
      assert (Ht : terminated (rev (NL :: cur))).
      { exists (rev cur). split; [reflexivity|]. now apply not_in_rev. }
      destruct ls as [|x ls]; cbn [app] in E.
      * injection E as <- _. split; [constructor | now left].
      * injection E as <- E.
        destruct (IH [] (fun H => H) ls l E) as (Hall & Hl).
        split; [now constructor | exact Hl].
    + apply Byte.eqb_false in Hb.
      apply (IH (b :: cur)); [|exact E].
      intros [Hin|Hin]; [congruence | contradiction].
Qed.

(** X1. The lines read from the input: every line but the last ends with
    its newline and has no other; the last one is such a line too, or it is
    a non-empty rest without any newline. *)
Theorem read_lines_shape (s : bytes) (ls : list bytes) (l : bytes) :
  read_lines s = ls ++ [l] ->
  Forall terminated ls /\ (terminated l \/ unterminated l).
Proof. apply read_lines_from_shape. intros []. Qed.

Lemma read_lines_from_line (body rest cur : bytes) :
  ~ In NL body ->
  read_lines_from cur (body ++ NL :: rest)
  = (rev cur ++ body ++ [NL]) :: read_lines_from [] rest.
Proof.
  intros Hb. revert cur; induction body as [|b body IH]; intros cur;
    cbn [app read_lines_from].
  - replace (Byte.eqb NL NL) with true by reflexivity. reflexivity.
  - destruct (Byte.eqb b NL) eqn:E.
    + apply Byte.byte_dec_bl in E. subst b. exfalso. apply Hb. now left.
    + rewrite IH by (intros Hin; apply Hb; now right).
      cbn [rev]. now rewrite <- app_assoc.
Qed.

Lemma read_lines_from_rest (rest cur : bytes) :
  ~ In NL rest ->
  read_lines_from cur rest
  = match rev cur ++ rest with [] => [] | l => [l] end.
Proof.
  intros Hr. revert cur; induction rest as [|b rest IH]; intros cur;
    cbn [read_lines_from].
  - rewrite app_nil_r. destruct cur as [|c cur]; [reflexivity|].
    destruct (rev (c :: cur)) eqn:E; [|reflexivity].
    apply (f_equal (@rev _)) in E. rewrite rev_involutive in E.
    discriminate.
  - destruct (Byte.eqb b NL) eqn:E.
    + apply Byte.byte_dec_bl in E. subst b. exfalso. apply Hr. now left.
    + rewrite IH by (intros Hin; apply Hr; now right).
      cbn [rev]. now rewrite <- app_assoc.
Qed.

(** X2. Reading lines undoes putting lines end to end: terminated lines
    followed by a rest without newline are read back as they were, the
    rest as a last line when it is not empty. *)
Theorem read_lines_of_concat (ls : list bytes) (rest : bytes) :
  Forall terminated ls -> ~ In NL rest ->
  read_lines (concat ls ++ rest)
  = ls ++ match rest with [] => [] | _ :: _ => [rest] end.
Proof.
  intros Hls Hr. unfold read_lines.
  induction Hls as [|l ls (body & -> & Hb) _ IH]; cbn [concat app].
  - rewrite read_lines_from_rest by exact Hr. now destruct rest.
  - rewrite <- !app_assoc. cbn [app].
    rewrite read_lines_from_line by exact Hb. cbn [rev app].
    now rewrite IH.
Qed.

(** ** The chunks of the lines *)

(** Lines that fill the chunk being built: the chunk is yielded when the
    last of them is read. *)
Lemma stream_chunks_loop_fill (k : Z) (pre rest chunk : list bytes) (i : Z) :
  pre <> [] -> Z.of_nat (length chunk + length pre) = k ->
  stream_chunks_loop k chunk i (pre ++ rest)
  = (i, chunk ++ pre) :: stream_chunks_loop k [] (i + 1)%Z rest.
Proof.
  revert chunk; induction pre as [|a pre IH]; intros chunk Hne Hk;
    [congruence|].
  cbn [app stream_chunks_loop].
  assert (Hl : length (chunk ++ [a]) = length chunk + 1)
    by (rewrite length_app; reflexivity).
  destruct pre as [|b pre].
  - cbn [length] in Hk. rewrite Hl.
    destruct (Z.geb_spec (Z.of_nat (length chunk + 1)) k); [|lia].
    reflexivity.
  - cbn [length] in Hk. rewrite Hl.
    destruct (Z.geb_spec (Z.of_nat (length chunk + 1)) k); [lia|].
    rewrite IH; [|discriminate|rewrite Hl; cbn [length]; lia].
    now rewrite <- app_assoc.
Qed.

(** Lines that do not fill the chunk being built: they are yielded with it
    at the end of the input. *)
Lemma stream_chunks_loop_rest (k : Z) (lines chunk : list bytes) (i : Z) :
  (Z.of_nat (length chunk + length lines) < k)%Z ->
  stream_chunks_loop k chunk i lines
  = match chunk ++ lines with [] => [] | c => [(i, c)] end.
Proof.
  revert chunk; induction lines as [|a lines IH]; intros chunk Hk;
    cbn [stream_chunks_loop].
  - rewrite app_nil_r. now destruct chunk.
  - assert (Hl : length (chunk ++ [a]) = length chunk + 1)
      by (rewrite length_app; reflexivity).
    cbn [length] in Hk. rewrite Hl.
    destruct (Z.geb_spec (Z.of_nat (length chunk + 1)) k); [lia|].
    rewrite IH by (rewrite Hl; lia). now rewrite <- app_assoc.
Qed.

(** Chunk [i] holds the lines [i * k] to [i * k + k - 1] that exist. *)
Lemma stream_chunks_loop_nth (k : nat) (i : nat) :
  0 < k ->
  forall (lines : list bytes) (idx : Z),
    nth_error (stream_chunks_loop (Z.of_nat k) [] idx lines) i
    = if i * k <? length lines
      then Some ((idx + Z.of_nat i)%Z, firstn k (skipn (i * k) lines))
      else None.
Proof.
  intros Hk. induction i as [|i IH]; intros lines idx.
  - destruct (le_lt_dec k (length lines)) as [Hl|Hl].
    + rewrite <- (firstn_skipn k lines) at 1.
      rewrite stream_chunks_loop_fill.
      * cbn [nth_error Nat.mul skipn app].
        destruct (Nat.ltb_spec 0 (length lines)); [|lia].
        now rewrite Z.add_0_r.
      * intros E. apply (f_equal (@length _)) in E.
        rewrite length_firstn in E. cbn in E. lia.
      * rewrite length_firstn. cbn [length]. lia.
    + rewrite stream_chunks_loop_rest by (cbn [length]; lia).
      cbn [app Nat.mul skipn]. rewrite firstn_all2 by lia.
      destruct lines; cbn [nth_error length]; [reflexivity|].
      now rewrite Z.add_0_r.
  - destruct (le_lt_dec k (length lines)) as [Hl|Hl].
    + rewrite <- (firstn_skipn k lines) at 1.
      rewrite stream_chunks_loop_fill.
      * cbn [nth_error]. rewrite IH, length_skipn, skipn_skipn.
        replace (i * k + k) with (S i * k) by lia.
        destruct (Nat.ltb_spec (i * k) (length lines - k));
          destruct (Nat.ltb_spec (S i * k) (length lines)); try lia;
          [|reflexivity].
        do 2 f_equal. lia.
      * intros E. apply (f_equal (@length _)) in E.
        rewrite length_firstn in E. cbn in E. lia.
      * rewrite length_firstn. cbn [length]. lia.
    + rewrite stream_chunks_loop_rest by (cbn [length]; lia).
      destruct (Nat.ltb_spec (S i * k) (length lines)); [lia|].
      cbn [app]. destruct lines; [reflexivity|]. now destruct i.
Qed.

(** X3. With a positive chunk size [k], chunk number [i] is the pair of
    [i] and the lines [i * k], ..., [i * k + k - 1] of the input, as many of
    them as there are; there is no chunk [i] when the input has no line
    [i * k]. *)
Theorem chunks_are_slices_of_lines (input : bytes) (chunk_size : Z)
    (i : nat) :
  (0 < chunk_size)%Z ->
  nth_error (stream_chunks_from_input input chunk_size) i
  = if i * Z.to_nat chunk_size <? length (read_lines input)
    then Some (Z.of_nat i,
               firstn (Z.to_nat chunk_size)
                      (skipn (i * Z.to_nat chunk_size) (read_lines input)))
    else None.
Proof.
  intros Hk. unfold stream_chunks_from_input.
  rewrite <- (Z2Nat.id chunk_size) at 1 by lia.
  rewrite stream_chunks_loop_nth by lia. reflexivity.
Qed.

(** ** The key and the bytes of the line *)

Lemma decode_codes_ascii_cons (c : N) (r : list N) :
  (c < 128)%N -> decode_codes (c :: r) = c :: decode_codes r.
Proof.
  intros Hc. cbn [decode_codes].
  destruct (N.ltb_spec c 128); [reflexivity | lia].
Qed.

Lemma is_cont_ascii (c : N) : (c < 128)%N -> is_cont c = false.
Proof.
  intros Hc. unfold is_cont. destruct (N.leb_spec 128 c); [lia|reflexivity].
Qed.

Lemma second_ok_ascii (b0 c : N) : (c < 128)%N -> second_ok b0 c = false.
Proof.
  intros Hc. destruct (second_ok b0 c) eqn:E; [|reflexivity].
  apply second_ok_high in E. lia.
Qed.

(** An ASCII byte ends whatever sequence is being decoded: the text of
    the bytes before it, the character, the text of the bytes after it. *)
Lemma decode_codes_app_ascii (c : N) (r : list N) (n : nat) (a : list N) :
  (c < 128)%N -> length a <= n ->
  decode_codes (a ++ c :: r) = decode_codes a ++ c :: decode_codes r.
Proof.
  intros Hc. revert a. induction n as [|n IH]; intros a Hn.
  - destruct a; [now apply decode_codes_ascii_cons | cbn in Hn; lia].
  - destruct a as [|b0 a0]; [now apply decode_codes_ascii_cons|].
    cbn [length] in Hn.
    assert (I0 := IH a0 ltac:(lia)).
    assert (Hcons := decode_codes_ascii_cons c r Hc).
    assert (Hcont := is_cont_ascii c Hc).
    assert (Hsec := second_ok_ascii b0 c Hc).
    cbn [app decode_codes].
    destruct (b0 <? 128)%N; [cbn [app]; now rewrite I0|].
    destruct ((194 <=? b0) && (b0 <=? 223))%N;
      [|destruct ((224 <=? b0) && (b0 <=? 239))%N;
        [|destruct ((240 <=? b0) && (b0 <=? 244))%N;
          [|cbn [app]; now rewrite I0]]].
    + destruct a0 as [|b1 a1]; cbn [app] in *.
      { now rewrite Hcont, Hcons. }
      cbn [length] in Hn. assert (I1 := IH a1 ltac:(lia)).
      destruct (is_cont b1); cbn [app]; [now rewrite I1 | now rewrite I0].
    + destruct a0 as [|b1 a1]; cbn [app] in *.
      { now rewrite Hsec, Hcons. }
      cbn [length] in Hn. assert (I1 := IH a1 ltac:(lia)).
      destruct (second_ok b0 b1); cbn [app]; [|now rewrite I0].
      destruct a1 as [|b2 a2]; cbn [app] in *.
      { now rewrite Hcont, Hcons. }
      cbn [length] in Hn. assert (I2 := IH a2 ltac:(lia)).
      destruct (is_cont b2); cbn [app]; [now rewrite I2 | now rewrite I1].
    + destruct a0 as [|b1 a1]; cbn [app] in *.
      { now rewrite Hsec, Hcons. }
      cbn [length] in Hn. assert (I1 := IH a1 ltac:(lia)).
      destruct (second_ok b0 b1); cbn [app]; [|now rewrite I0].
      destruct a1 as [|b2 a2]; cbn [app] in *.
      { now rewrite Hcont, Hcons. }
      cbn [length] in Hn. assert (I2 := IH a2 ltac:(lia)).
      destruct (is_cont b2); cbn [app]; [|now rewrite I1].
      destruct a2 as [|b3 a3]; cbn [app] in *.
      { now rewrite Hcont, Hcons. }
      cbn [length] in Hn. assert (I3 := IH a3 ltac:(lia)).
      destruct (is_cont b3); cbn [app]; [now rewrite I3 | now rewrite I2].
Qed.

Lemma decode_app_ascii (c : byte) (a r : bytes) :
  (Byte.to_N c < 128)%N ->
  decode (a ++ c :: r) = decode a ++ Byte.to_N c :: decode r.
Proof.
  intros Hc. unfold decode. rewrite map_app. cbn [map].
  now apply decode_codes_app_ascii with (n := length (map Byte.to_N a)).
Qed.

(** The key of a text with a brace, from the definition. *)
Lemma extract_prejson_before (line : bytes) (pre post : text) :
  decode line = pre ++ LBRACE :: post -> ~ In LBRACE pre ->
  extract_prejson line = strip pre.
Proof.
  intros E Hpre. unfold extract_prejson. rewrite E.
  rewrite rstrip_chars_keep by reflexivity.
  unfold find. rewrite find_from_first by exact Hpre.
  destruct (0 + Z.of_nat (length pre) =? -1)%Z eqn:T;
    [apply Z.eqb_eq in T; lia|].
  cbn [negb]. unfold slice_to. cbn [Z.add].
  rewrite Nat2Z.id, firstn_app, firstn_all, Nat.sub_diag. cbn [firstn].
  now rewrite app_nil_r.
Qed.

(** The key of a text without brace, from the definition. *)
Lemma extract_prejson_whole (line : bytes) :
  ~ In LBRACE (decode line) -> extract_prejson line = strip (decode line).
Proof.
  intros Hno. unfold extract_prejson.
  destruct (rstrip_chars_split (decode line) [CR; LF]) as (tail & E & F).
  assert (Hno' : ~ In LBRACE (rstrip_chars (decode line) [CR; LF])).
  { intros Hin. apply Hno. rewrite E. apply in_or_app. now left. }
  unfold find. rewrite find_from_absent by exact Hno'.
  change (negb (-1 =? -1)%Z) with false. cbv iota.
  set (l := rstrip_chars (decode line) [CR; LF]) in *. clearbody l.
  rewrite E. symmetry. apply strip_app_space.
  apply forallb_forall. intros c Hc.
  rewrite forallb_forall in F. specialize (F c Hc). cbn in F.
  rewrite orb_false_r in F. apply orb_prop in F.
  destruct F as [F|F]; apply N.eqb_eq in F; subst c; reflexivity.
Qed.

(** X4. The key of a line is made from the bytes before its first brace
    byte alone: it is their decoded text, stripped.  What follows the brace
    has no part in it. *)
Theorem key_from_bytes_before_brace (pre post : bytes) :
  ~ In x7b pre ->
  extract_prejson (pre ++ x7b :: post) = strip (decode pre).
Proof.
  intros Hpre.
  apply extract_prejson_before with (post := decode post).
  - now apply (decode_app_ascii x7b).
  - intros Hin. apply Hpre. now apply (decode_ascii x7b).
Qed.

Lemma dropwhile_idem (p : N -> bool) (s : text) :
  dropwhile p (dropwhile p s) = dropwhile p s.
Proof.
  induction s as [|c s IH]; cbn; [reflexivity|].
  destruct (p c) eqn:E; [exact IH|]. cbn. now rewrite E.
Qed.

Lemma dropwhile_head (p : N -> bool) (s : text) (c : N) (w : text) :
  dropwhile p s = c :: w -> p c = false.
Proof.
  induction s as [|d s IH]; cbn; [discriminate|].
  destruct (p d) eqn:E; [exact IH|]. now intros [= <- _].
Qed.

Lemma rstrip_split (s : text) :
  exists tail, s = rstrip s ++ tail /\ forallb isspace tail = true.
Proof.
  unfold rstrip.
  destruct (dropwhile_split isspace (rev s)) as (d & E & F).
  exists (rev d). split.
  - rewrite <- rev_app_distr, <- E. now rewrite rev_involutive.
  - now rewrite forallb_rev.
Qed.

Lemma rstrip_idem (s : text) : rstrip (rstrip s) = rstrip s.
Proof. unfold rstrip. now rewrite rev_involutive, dropwhile_idem. Qed.

Lemma lstrip_strip (s : text) : lstrip (strip s) = strip s.
Proof.
  unfold strip, lstrip.
  destruct (rstrip_split (dropwhile isspace s)) as (tail & E & _).
  destruct (rstrip (dropwhile isspace s)) as [|c w] eqn:R; [reflexivity|].
  cbn [app] in E. apply dropwhile_head in E. cbn. now rewrite E.
Qed.

Lemma in_strip (c : N) (s : text) : In c (strip s) -> In c s.
Proof.
  intros H. unfold strip, lstrip in H.
  destruct (rstrip_split (dropwhile isspace s)) as (tail & E & _).
  destruct (dropwhile_split isspace s) as (d & Es & _).
  rewrite Es, E. apply in_or_app. right. apply in_or_app. now left.
Qed.

(** The first occurrence of a character in a text that has it. *)
Lemma first_occurrence (c : N) (s : text) :
  In c s -> exists pre post, s = pre ++ c :: post /\ ~ In c pre.
Proof.
  induction s as [|d s IH]; [intros []|]. intros H.
  destruct (N.eq_dec d c) as [->|Hd].
  - exists [], s. split; [reflexivity | intros []].
  - destruct H as [H|H]; [congruence|].
    destruct (IH H) as (pre & post & -> & Hpre).
    exists (d :: pre), post. split; [reflexivity|].
    intros [E|E]; [congruence | contradiction].
Qed.

(** X5. A key is already stripped and has no brace: stripping it again on
    either side changes nothing, for every line, decodable or not. *)
Theorem key_is_stripped_and_braceless (line : bytes) :
  lstrip (extract_prejson line) = extract_prejson line
  /\ rstrip (extract_prejson line) = extract_prejson line
  /\ ~ In LBRACE (extract_prejson line).
Proof.
  assert (H : exists y, extract_prejson line = strip y /\ ~ In LBRACE y).
  { destruct (in_dec N.eq_dec LBRACE (decode line)) as [Hin|Hno].
    - destruct (first_occurrence _ _ Hin) as (pre & post & E & Hpre).
      exists pre. split; [|exact Hpre].
      now apply extract_prejson_before with (post := post).
    - exists (decode line). split; [|exact Hno].
      now apply extract_prejson_whole. }
  destruct H as (y & -> & Hy). split; [|split].
  - apply lstrip_strip.
  - unfold strip. apply rstrip_idem.
  - intros Hin. apply Hy. now apply in_strip.
Qed.

Lemma decode_codes_all_ascii (bs : list N) :
  Forall (fun b => (b < 128)%N) bs -> decode_codes bs = bs.
Proof.
  induction 1 as [|b bs Hb _ IH]; [reflexivity|].
  rewrite decode_codes_ascii_cons by exact Hb. now rewrite IH.
Qed.

(** X6. On a line of ASCII bytes decoding replaces nothing: the text has
    one character for each byte, of the same value, and the key is made of
    bytes of the line: those before the first brace, stripped. *)
Theorem ascii_key_is_bytes_of_line (pre post : bytes) :
  Forall (fun b => (Byte.to_N b < 128)%N) pre -> ~ In x7b pre ->
  decode pre = map Byte.to_N pre
  /\ extract_prejson (pre ++ x7b :: post) = strip (map Byte.to_N pre).
Proof.
  intros Ha Hpre.
  assert (E : decode pre = map Byte.to_N pre).
  { unfold decode. apply decode_codes_all_ascii.
    now apply Forall_map. }
  split; [exact E|]. rewrite <- E.
  apply extract_prejson_before with (post := decode post).
  - now apply (decode_app_ascii x7b).
  - intros Hin. apply Hpre. now apply (decode_ascii x7b).
Qed.

(** ** The shard writer *)

Section Writer.

Variable gzip_compress : bytes -> Z -> bytes.
Variables od base : text.
Variable target : size.
Variable level : Z.

Lemma run_loop_chained (chunks : list (Z * list bytes)) (st st' : state)
    (es : list idx_entry) :
  wf od base st ->
  run_loop gzip_compress od base target level st chunks = Ok (es, st') ->
  chained target (tell (current_raw_fh st)) (current_shard st + 1) es.
Proof.
  revert st es; induction chunks as [|[i c] chunks IH]; intros st es Hwf H.
  - cbn in H. now injection H as <- <-.
  - destruct (run_loop_inv _ _ _ _ _ Hwf H)
      as (first & rest & e & st1 & es1 & _ & _ & -> & _ & _ & Hs & Hl & Hn
          & Hwf1 & _ & Hr & Hrun).
    specialize (IH _ _ Hwf1 Hrun). cbn [chained].
    rewrite tell_write, <- Hs, <- Hl in Hr.
    rewrite <- Hs. repeat split; auto; [lia|].
    destruct (reached (e_start_offset e + e_comp_len e) target).
    + destruct Hr as (Hc & _ & Hf & _). rewrite Hc, Hf in IH.
      now rewrite Nat.add_1_r in *.
    + destruct Hr as (Hc & _ & Hf). rewrite Hc, Hf, tell_write in IH.
      now rewrite Hs, Hl.
Qed.

Lemma run_loop_rollovers (chunks : list (Z * list bytes)) (st st' : state)
    (es : list idx_entry) :
  wf od base st ->
  run_loop gzip_compress od base target level st chunks = Ok (es, st') ->
  current_shard st' = current_shard st + rollovers target es.
Proof.
  revert st es; induction chunks as [|[i c] chunks IH]; intros st es Hwf H.
  - cbn in H. injection H as <- <-. cbn. lia.
  - destruct (run_loop_inv _ _ _ _ _ Hwf H)
      as (first & rest & e & st1 & es1 & _ & _ & -> & _ & _ & Hs & Hl & _
          & Hwf1 & _ & Hr & Hrun).
    rewrite (IH _ _ Hwf1 Hrun). unfold rollovers. cbn [filter].
    rewrite tell_write, <- Hs, <- Hl in Hr.
    destruct (reached (e_start_offset e + e_comp_len e) target).
    + destruct Hr as (-> & _). cbn [length]. lia.
    + destruct Hr as (-> & _). reflexivity.
Qed.

(** The shards closed by the loop are at the target size or over it. *)
Lemma run_loop_closed_reached (chunks : list (Z * list bytes))
    (st st' : state) (es : list idx_entry) :
  wf od base st ->
  run_loop gzip_compress od base target level st chunks = Ok (es, st') ->
  Forall (fun f => reached (tell f) target = true) (closed st) ->
  Forall (fun f => reached (tell f) target = true) (closed st').
Proof.
  revert st es; induction chunks as [|[i c] chunks IH]; intros st es Hwf H Hc.
  - cbn in H. now injection H as <- <-.
  - destruct (run_loop_inv _ _ _ _ _ Hwf H)
      as (first & rest & e & st1 & es1 & _ & _ & -> & _ & _ & _ & _ & _
          & Hwf1 & _ & Hr & Hrun).
    apply (IH _ _ Hwf1 Hrun).
    destruct (reached _ target) eqn:R.
    + destruct Hr as (_ & -> & _). apply Forall_app. split; [exact Hc|].
      now repeat constructor.
    + destruct Hr as (_ & -> & _). exact Hc.
Qed.

(** The bytes of the shards, one shard after the other, grow by the
    compressed chunks in the order of the chunks. *)
Lemma run_loop_data (chunks : list (Z * list bytes)) (st st' : state)
    (es : list idx_entry) :
  wf od base st ->
  run_loop gzip_compress od base target level st chunks = Ok (es, st') ->
  concat (map f_data (files_of st'))
  = concat (map f_data (files_of st))
    ++ concat (map (fun c => gzip_compress (concat (snd c)) level) chunks).
Proof.
  revert st es; induction chunks as [|[i c] chunks IH]; intros st es Hwf H.
  - cbn in H. injection H as <- <-. cbn. now rewrite app_nil_r.
  - destruct (run_loop_inv _ _ _ _ _ Hwf H)
      as (first & rest & e & st1 & es1 & _ & _ & -> & _ & _ & _ & _ & _
          & Hwf1 & _ & Hr & Hrun).
    rewrite (IH _ _ Hwf1 Hrun). cbn [map concat snd].
    rewrite app_assoc. f_equal. unfold files_of.
    destruct (reached _ target).
    + destruct Hr as (_ & -> & -> & _).
      rewrite !map_app, !concat_app. cbn. now rewrite !app_nil_r, app_assoc.
    + destruct Hr as (_ & -> & ->).
      rewrite !map_app, !concat_app. cbn. now rewrite !app_nil_r, app_assoc.
Qed.

(** The index buffer stays under its size from one iteration to the
    next. *)
Lemma loop_body_buffer (st st1 : state) (c : list bytes) (e : idx_entry) :
  loop_body gzip_compress od base target level st c = Ok (e, st1) ->
  length (idx_buffer st1) < idx_buffer_size.
Proof.
  unfold loop_body. destruct c as [|first rest]; [discriminate|].
  cbn [index nth_error bind].
  destruct (index (created_shards st) (current_shard st)) as [path|];
    cbn [bind]; [|discriminate].
  match goal with
  | |- context [idx_buffer st ++ [?l]] => set (buf := idx_buffer st ++ [l])
  end.
  destruct (Nat.leb_spec idx_buffer_size (length buf)) as [Hb|Hb];
    destruct (reached _ target).
  - intros [= _ <-]. cbn. unfold idx_buffer_size. lia.
  - intros [= _ <-]. cbn. unfold idx_buffer_size. lia.
  - destruct buf; intros [= _ <-]; cbn; unfold idx_buffer_size; lia.
  - intros [= _ <-]. exact Hb.
Qed.

Lemma run_loop_buffer (chunks : list (Z * list bytes)) (st st' : state)
    (es : list idx_entry) :
  length (idx_buffer st) < idx_buffer_size ->
  run_loop gzip_compress od base target level st chunks = Ok (es, st') ->
  length (idx_buffer st') < idx_buffer_size.
Proof.
  revert st es; induction chunks as [|[i c] chunks IH]; intros st es Hb H.
  - cbn in H. now injection H as <- <-.
  - cbn [run_loop] in H.
    destruct (loop_body gzip_compress od base target level st c)
      as [[e st1]|] eqn:E; cbn [bind] in H; [|discriminate].
    destruct (run_loop gzip_compress od base target level st1 chunks)
      as [[es1 st2]|] eqn:E1; cbn in H; [|discriminate].
    injection H as <- <-.
    apply (IH _ _ (loop_body_buffer _ _ _ _ E) E1).
Qed.

End Writer.

Lemma rename_data (src dst : text) (fs : list file) :
  map f_data (rename src dst fs) = map f_data fs.
Proof.
  unfold rename. rewrite map_map. apply map_ext.
  intros f. now destruct (Str.eqb (f_path f) src).
Qed.

Lemma rename_length (src dst : text) (fs : list file) :
  length (rename src dst fs) = length fs.
Proof. unfold rename. apply length_map. Qed.

Lemma files_of_paths (od base : text) (st : state) :
  wf od base st -> map f_path (files_of st) = created_shards st.
Proof.
  intros (Hc & Hp & Hcl). unfold files_of.
  rewrite map_app, Hcl, Hc, shard_paths_S. cbn. now rewrite Hp.
Qed.

Lemma renames_first (od base : text) (st : state) :
  wf od base st -> renames od base st = true ->
  current_shard st = 0 /\ closed st = []
  /\ f_path (current_raw_fh st) = get_shard_path od base 0 false.
Proof.
  intros Hwf R. unfold renames in R. apply andb_prop in R.
  destruct R as (R & _). apply Nat.eqb_eq in R.
  pose proof (wf_closed_length _ _ _ Hwf) as Hl.
  destruct Hwf as (_ & Hp & _). rewrite R in *.
  repeat split; auto. now destruct (closed st).
Qed.

(** Records that all reach the target: each starts a shard of its own. *)
Lemma chained_all_reached (target : size) (es : list idx_entry) (n : nat) :
  (forall len, (0 <= len)%Z -> reached (0 + len) target = true) ->
  chained target 0 n es ->
  Forall (fun e => e_start_offset e = 0%Z) es
  /\ map e_shard_number es = seq n (length es)
  /\ rollovers target es = length es.
Proof.
  intros Hall. revert n; induction es as [|e es IH]; intros n H;
    [now repeat split|].
  cbn [chained] in H. destruct H as (Hs & Hn & Hl & H).
  rewrite (Hall _ Hl) in H. destruct (IH _ H) as (A & B & C).
  unfold rollovers in *. cbn [filter map seq length].
  rewrite Hs, (Hall _ Hl). cbn [length]. rewrite B, C, Hn.
  repeat split; auto.
Qed.

(** Records that never reach the target: all in the shard of the first. *)
Lemma chained_none_reached (es : list idx_entry) (start : Z) (n : nat) :
  chained Inf start n es ->
  Forall (fun e => e_shard_number e = n) es /\ rollovers Inf es = 0.
Proof.
  revert start; induction es as [|e es IH]; intros start H;
    [now repeat split|].
  cbn [chained reached] in H. destruct H as (_ & Hn & _ & H).
  destruct (IH _ H) as (A & B). split; [now constructor|exact B].
Qed.

Lemma chained_starts (target : size) (es : list idx_entry) (start : Z)
    (n : nat) :
  start = 0%Z \/ reached start target = false ->
  chained target start n es ->
  Forall (fun e => e_start_offset e = 0%Z
                   \/ reached (e_start_offset e) target = false) es.
Proof.
  revert start n; induction es as [|e es IH]; intros start n Hs H;
    [constructor|].
  cbn [chained] in H. destruct H as (He & _ & _ & H).
  constructor; [now rewrite He|].
  destruct (reached (start + e_comp_len e) target) eqn:R.
  - apply (IH 0%Z (S n)); [now left | exact H].
  - apply (IH (start + e_comp_len e)%Z n); [now right | exact H].
Qed.

Lemma Forall2_nth_error {A B : Type} (R : A -> B -> Prop) (l1 : list A)
    (l2 : list B) (i : nat) (a : A) :
  Forall2 R l1 l2 -> nth_error l1 i = Some a ->
  exists b, nth_error l2 i = Some b /\ R a b.
Proof.
  intros H. revert i; induction H as [|x y l1 l2 Hxy _ IH]; intros i Hi.
  - now destruct i.
  - destruct i as [|i]; cbn in *; [injection Hi as <-; eauto | eauto].
Qed.

Lemma firstn_skipn_head {A : Type} (l : list A) (k n : nat) (x : A)
    (r : list A) :
  firstn k (skipn n l) = x :: r -> nth_error l n = Some x.
Proof.
  revert l; induction n as [|n IH]; intros l H.
  - destruct l, k; cbn in H; try discriminate. now injection H as <- _.
  - destruct l; cbn in H; [now destruct k | now apply IH].
Qed.

(** ** The whole run, again *)

Section Further.

Variable gzip_compress : bytes -> Z -> bytes.
Variable abspath : text -> text.

(** X7. The index records follow the shard writer: the first record is at
    offset 0 of shard 1; after a record whose end reaches the target size
    the next one is at offset 0 of the next shard, and after any other
    record the next one is in the same shard, right after it. *)
Theorem index_records_are_chained (p : params) :
  exists o,
    cdxj_to_zipnum gzip_compress abspath p = Ok o
    /\ chained (target_of (shard_size_mb p)) 0 1 (out_entries o).
Proof.
  destruct (cdxj_to_zipnum_spec gzip_compress abspath p)
    as (es & st & o & Hl & _ & Ho & He & _).
  exists o. split; [exact Ho|]. rewrite He.
  exact (run_loop_chained _ _ _ _ _ _ _ _ _ (wf_init _ _) Hl).
Qed.

(** X8. A run leaves one shard more than it has records whose end reaches
    the target size, and lists as many paths as it leaves shard files. *)
Theorem shards_are_rollovers_plus_one (p : params) :
  exists o,
    cdxj_to_zipnum gzip_compress abspath p = Ok o
    /\ length (out_shards o)
       = S (rollovers (target_of (shard_size_mb p)) (out_entries o))
    /\ length (out_created_shards o) = length (out_shards o).
Proof.
  destruct (cdxj_to_zipnum_spec gzip_compress abspath p)
    as (es & st & o & Hl & Hwf & Ho & He & _ & Hcs & Hs & _).
  exists o. split; [exact Ho|].
  pose proof (run_loop_rollovers _ _ _ _ _ _ _ _ _ (wf_init _ _) Hl) as Hr.
  pose proof (wf_closed_length _ _ _ Hwf) as Hcl.
  cbn [init_state current_shard] in Hr.
  assert (Hf : length (files_of st) = S (current_shard st))
    by (unfold files_of; rewrite length_app, Hcl; cbn; lia).
  rewrite He, Hs, Hcs.
  destruct (renames _ _ st) eqn:R.
  - destruct (renames_first _ _ _ Hwf R) as (Hc & _).
    rewrite rename_length, Hf. cbn. split; lia.
  - rewrite Hf, (proj1 Hwf), shard_paths_length. split; lia.
Qed.

(** X9. With [--single-shard] and a compression level from 1 to 9 the run
    completes with exactly one shard, every record in shard 1, whatever the
    input and whatever [--shard-size] says. *)
Theorem single_shard_mode_one_shard (a : args) :
  a_single_shard a = true -> (1 <= a_compress_level a < 10)%Z ->
  (exists o,
     main gzip_compress abspath a = Ok o
     /\ length (out_shards o) = 1
     /\ length (out_created_shards o) = 1
     /\ Forall (fun e => e_shard_number e = 1) (out_entries o))
  /\ forall z,
       main gzip_compress abspath (with_shard_size a z)
       = main gzip_compress abspath a.
Proof.
  intros Hs Hl. split.
  - unfold main, parse_args.
    destruct (Z.leb_spec 1 (a_compress_level a)); [|lia].
    destruct (Z.ltb_spec (a_compress_level a) 10); [|lia].
    cbn [andb bind]. rewrite Hs.
    set (p := mkParams _ _ _ _ _ _ _ _).
    destruct (cdxj_to_zipnum_spec gzip_compress abspath p)
      as (es & st & o & Hrun & Hwf & Ho & He & _ & Hcs & Hsh & _).
    exists o. split; [exact Ho|].
    pose proof (run_loop_chained _ _ _ _ _ _ _ _ _ (wf_init _ _) Hrun) as Hc.
    pose proof (run_loop_rollovers _ _ _ _ _ _ _ _ _ (wf_init _ _) Hrun)
      as Hr.
    cbn [p shard_size_mb target_of init_state current_shard] in Hc, Hr.
    destruct (chained_none_reached _ _ _ Hc) as (Hall & Hz).
    rewrite Hz in Hr. cbn in Hr.
    pose proof (wf_closed_length _ _ _ Hwf) as Hcl.
    assert (Hf : length (files_of st) = 1)
      by (unfold files_of; rewrite length_app, Hcl, Hr; reflexivity).
    rewrite He, Hcs, Hsh. repeat split; [| |exact Hall].
    + destruct (renames _ _ st); [now rewrite rename_length|exact Hf].
    + destruct (renames _ _ st); [reflexivity|].
      now rewrite (proj1 Hwf), shard_paths_length, Hr.
  - intros z. unfold main, parse_args, with_shard_size.
    cbn [a_compress_level a_input a_output a_shard_size a_single_shard
         a_chunk_size a_base a_idx_file a_loc_file].
    destruct ((1 <=? a_compress_level a) && (a_compress_level a <? 10))%Z;
      cbn [bind]; [|reflexivity].
    now rewrite Hs.
Qed.

(** X10. With a shard size of 0 or less every chunk gets a shard of its
    own: record [i] is at offset 0 of shard [i + 1], and the run leaves
    one shard more than it has records. *)
Theorem nonpositive_shard_size_one_chunk_per_shard (p : params) (z : Z) :
  shard_size_mb p = Int z -> (z <= 0)%Z ->
  exists o,
    cdxj_to_zipnum gzip_compress abspath p = Ok o
    /\ Forall (fun e => e_start_offset e = 0%Z) (out_entries o)
    /\ map e_shard_number (out_entries o) = seq 1 (length (out_entries o))
    /\ length (out_shards o) = S (length (out_entries o)).
Proof.
  intros Hz Hle.
  destruct (cdxj_to_zipnum_spec gzip_compress abspath p)
    as (es & st & o & Hrun & Hwf & Ho & He & _ & Hcs & Hsh & _).
  exists o. split; [exact Ho|].
  pose proof (run_loop_chained _ _ _ _ _ _ _ _ _ (wf_init _ _) Hrun) as Hc.
  pose proof (run_loop_rollovers _ _ _ _ _ _ _ _ _ (wf_init _ _) Hrun) as Hr.
  cbn [init_state current_shard] in Hc, Hr.
  assert (Hall : forall len, (0 <= len)%Z ->
                   reached (0 + len) (target_of (shard_size_mb p)) = true).
  { intros len Hlen. rewrite Hz. cbn [target_of reached].
    destruct (Z.geb_spec (0 + len) (z * 1024 * 1024)); [reflexivity|lia]. }
  destruct (chained_all_reached _ _ _ Hall Hc) as (A & B & C).
  rewrite C in Hr. cbn in Hr.
  pose proof (wf_closed_length _ _ _ Hwf) as Hcl.
  rewrite He. repeat split; auto.
  rewrite Hsh.
  assert (Hf : length (files_of st) = S (length es))
    by (unfold files_of; rewrite length_app, Hcl, Hr; cbn; lia).
  destruct (renames _ _ st); [now rewrite rename_length|exact Hf].
Qed.

(** X11. Every shard of a run but the last has reached the target size:
    a shard is closed only when the write of a chunk brings it there. *)
Theorem closed_shards_reached_target (p : params) :
  exists o,
    cdxj_to_zipnum gzip_compress abspath p = Ok o
    /\ Forall (fun f => reached (tell f) (target_of (shard_size_mb p)) = true)
              (removelast (out_shards o)).
Proof.
  destruct (cdxj_to_zipnum_spec gzip_compress abspath p)
    as (es & st & o & Hrun & Hwf & Ho & _ & _ & _ & Hsh & _).
  exists o. split; [exact Ho|]. rewrite Hsh.
  destruct (renames _ _ st) eqn:R.
  - destruct (renames_first _ _ _ Hwf R) as (_ & Hc & _).
    unfold files_of. rewrite Hc. cbn. constructor.
  - unfold files_of. rewrite removelast_last.
    apply (run_loop_closed_reached _ _ _ _ _ _ _ _ _ (wf_init _ _) Hrun).
    constructor.
Qed.

(** X12. A chunk is never written into a shard that has reached the
    target size: a record starts its shard, at offset 0, or starts at an
    offset below the target size. *)
Theorem no_chunk_after_target (p : params) :
  exists o,
    cdxj_to_zipnum gzip_compress abspath p = Ok o
    /\ Forall (fun e =>
                 e_start_offset e = 0%Z
                 \/ reached (e_start_offset e) (target_of (shard_size_mb p))
                    = false)
              (out_entries o).
Proof.
  destruct (cdxj_to_zipnum_spec gzip_compress abspath p)
    as (es & st & o & Hrun & _ & Ho & He & _).
  exists o. split; [exact Ho|]. rewrite He.
  apply (chained_starts _ _ 0%Z 1); [now left|].
  exact (run_loop_chained _ _ _ _ _ _ _ _ _ (wf_init _ _) Hrun).
Qed.

(** X13. The shard files read one after the other, in the order of the
    shard list, are the compressed chunks in the order of the chunks:
    nothing else is written to a shard, and no chunk is moved or left
    out. *)
Theorem shards_are_compressed_chunks_in_order (p : params) :
  exists o,
    cdxj_to_zipnum gzip_compress abspath p = Ok o
    /\ concat (map f_data (out_shards o))
       = concat (map (fun c => gzip_compress (concat (snd c))
                                 (compress_level p))
                     (stream_chunks_from_input (input p) (chunk_size p))).
Proof.
  destruct (cdxj_to_zipnum_spec gzip_compress abspath p)
    as (es & st & o & Hrun & _ & Ho & _ & _ & _ & Hsh & _).
  exists o. split; [exact Ho|].
  pose proof (run_loop_data _ _ _ _ _ _ _ _ _ (wf_init _ _) Hrun) as Hd.
  cbn in Hd. rewrite Hsh.
  destruct (renames _ _ st); [rewrite rename_data|]; exact Hd.
Qed.

(** X14. The shard list and the shard files agree: the list holds the
    paths of the files, in their order, also after the rename of a single
    shard; and no path is listed twice. *)
Theorem shard_list_is_paths_of_files (p : params) :
  exists o,
    cdxj_to_zipnum gzip_compress abspath p = Ok o
    /\ map f_path (out_shards o) = out_created_shards o
    /\ NoDup (out_created_shards o).
Proof.
  destruct (cdxj_to_zipnum_spec gzip_compress abspath p)
    as (es & st & o & _ & Hwf & Ho & _ & _ & Hcs & Hsh & _).
  exists o. split; [exact Ho|]. rewrite Hcs, Hsh.
  destruct (renames _ _ st) eqn:R.
  - destruct (renames_first _ _ _ Hwf R) as (_ & Hc & Hp).
    unfold files_of, rename. rewrite Hc. cbn [app map].
    rewrite Hp, Str_eqb_refl. cbn.
    split; [reflexivity|]. repeat constructor. intros [].
  - split; [now apply files_of_paths with (od := output_dir p)
                                         (base := base_of abspath p)|].
    rewrite (proj1 Hwf). apply shard_paths_NoDup.
Qed.

(** The run on an opened input never stops at a list index. *)
Lemma main_not_IndexError (a : args) :
  main gzip_compress abspath a <> Raise IndexError.
Proof.
  unfold main, parse_args.
  destruct ((1 <=? a_compress_level a) && (a_compress_level a <? 10))%Z;
    cbn [bind]; [|discriminate].
  match goal with
  | |- cdxj_to_zipnum _ _ ?p <> _ =>
      destruct (cdxj_to_zipnum_spec gzip_compress abspath p)
        as (es & st & o & _ & _ & Ho & _)
  end.
  rewrite Ho. discriminate.
Qed.

(** X15. No run raises [IndexError]: [chunk_lines[0]] and
    [created_shards[current_shard]] are in range at every iteration,
    whatever the parameters and the bytes of the input; and so for [main]
    from the command line on, whatever the output directory and the input
    file are: a run that stops on opening them stops with another
    exception. *)
Theorem run_never_raises_IndexError (p : params) (w : world)
    (input_path : text) (a : args) :
  cdxj_to_zipnum gzip_compress abspath p <> Raise IndexError
  /\ main_io gzip_compress abspath w input_path a <> Raise IndexError.
Proof.
  split.
  - destruct (cdxj_to_zipnum_spec gzip_compress abspath p)
      as (es & st & o & _ & _ & Ho & _).
    rewrite Ho. discriminate.
  - unfold main_io, ensure_dir, open_input_path.
    destruct (parse_args a) as [a'|e] eqn:Ea; cbn [bind];
      [|unfold parse_args in Ea;
        destruct ((1 <=? a_compress_level a) && (a_compress_level a <? 10))%Z;
        [discriminate Ea | injection Ea as <-; discriminate]].
    destruct (w_dir w (a_output a')); cbn [bind]; [|discriminate].
    destruct (Str.eqb input_path (lit "-")); cbn [bind];
      [apply main_not_IndexError|].
    destruct (endswith input_path (lit ".gz"));
      destruct (w_file w input_path) as [b|]; cbn [bind];
      try discriminate; try apply main_not_IndexError.
    destruct (w_gunzip w b); cbn [bind];
      try discriminate; apply main_not_IndexError.
Qed.

(** X16. At every point of the loop the index buffer holds fewer than 100
    lines, and what is already in the index file is a beginning of the
    index file the run leaves. *)
Theorem index_buffer_is_bounded (p : params)
    (pre post : list (Z * list bytes)) :
  stream_chunks_from_input (input p) (chunk_size p) = pre ++ post ->
  exists o es st,
    cdxj_to_zipnum gzip_compress abspath p = Ok o
    /\ run_loop gzip_compress (output_dir p) (base_of abspath p)
         (target_of (shard_size_mb p)) (compress_level p)
         (init_state (output_dir p) (base_of abspath p)) pre = Ok (es, st)
    /\ length (idx_buffer st) < idx_buffer_size
    /\ exists later, out_idx o = idxf st ++ later.
Proof.
  intros Hsplit.
  destruct (cdxj_to_zipnum_spec gzip_compress abspath p)
    as (es & st & o & Hrun & _ & Ho & _ & Hi & _).
  unfold loop_of in Hrun. rewrite Hsplit in Hrun.
  destruct (run_loop_app _ _ _ _ _ _ _ _ _ _ Hrun)
    as (es1 & st1 & es2 & E1 & E2 & _ & _).
  exists o, es1, st1. split; [exact Ho|]. split; [exact E1|]. split.
  - apply (fun H => run_loop_buffer _ _ _ _ _ _ _ _ _ H E1).
    cbn. unfold idx_buffer_size. lia.
  - pose proof (run_loop_wf _ _ _ _ _ _ _ _ _ (wf_init _ _) E1) as Hwf1.
    pose proof (run_loop_idx _ _ _ _ _ _ _ _ _ Hwf1 E2) as Hidx.
    rewrite Hi, Hidx. eexists. reflexivity.
Qed.

(** X17. In a run that leaves two shards or more, the shard name of an
    index record is the first field of the location record of its shard,
    the one at the place its shard number gives, and of no other location
    record. *)
Theorem index_names_resolve_in_location (p : params) (o : output) :
  cdxj_to_zipnum gzip_compress abspath p = Ok o ->
  2 <= length (out_created_shards o) ->
  Forall (fun e =>
            exists path,
              nth_error (out_created_shards o) (e_shard_number e - 1)
              = Some path
              /\ loc_record path = (e_shard_name e, basename path)
              /\ forall j path',
                   nth_error (out_created_shards o) j = Some path' ->
                   fst (loc_record path') = e_shard_name e ->
                   j = e_shard_number e - 1)
         (out_entries o).
Proof.
  intros Ho H2.
  destruct (index_names_are_numbered_names gzip_compress abspath p o Ho)
    as (Hall & Hlist).
  specialize (Hlist H2).
  set (n := length (out_created_shards o)) in *.
  eapply Forall_impl; [|exact Hall]. cbn beta.
  intros e ((Hpos & Hle) & Hname).
  exists (get_shard_path (output_dir p) (base_of abspath p)
            (e_shard_number e - 1) false).
  split; [|split].
  - rewrite Hlist. apply shard_paths_nth. lia.
  - unfold loc_record in *. cbn [fst] in Hname. now rewrite Hname.
  - intros j path' Hj Hn. rewrite Hlist in Hj.
    assert (Hjn : j < n).
    { rewrite <- (shard_paths_length (output_dir p) (base_of abspath p) n).
      apply nth_error_Some. rewrite Hj. discriminate. }
    rewrite shard_paths_nth in Hj by exact Hjn. injection Hj as <-.
    rewrite Hname in Hn. now apply shard_name_inj in Hn.
Qed.

(** X18. With a positive chunk size [k], index record [i] carries the key
    of line [i * k] of the input. *)
Theorem record_key_is_key_of_line (p : params) (o : output) (i : nat)
    (e : idx_entry) :
  cdxj_to_zipnum gzip_compress abspath p = Ok o ->
  (0 < chunk_size p)%Z ->
  nth_error (out_entries o) i = Some e ->
  exists l,
    nth_error (read_lines (input p)) (i * Z.to_nat (chunk_size p)) = Some l
    /\ e_pre e = extract_prejson l.
Proof.
  intros Ho Hk Hi.
  destruct (cdxj_to_zipnum_spec gzip_compress abspath p)
    as (es & st & o' & Hrun & _ & Ho' & He & _).
  rewrite Ho in Ho'. injection Ho' as <-. rewrite He in Hi.
  pose proof (run_loop_keys _ _ _ _ _ _ _ _ _ (wf_init _ _) Hrun) as Hkeys.
  destruct (Forall2_nth_error _ _ _ _ _ Hkeys Hi)
    as ([j c] & Hc & first & rest & Hfr & Hkey).
  cbn [snd] in Hfr. subst c.
  unfold stream_chunks_from_input in Hc.
  rewrite <- (Z2Nat.id (chunk_size p)) in Hc at 1 by lia.
  rewrite stream_chunks_loop_nth in Hc by lia.
  destruct (i * Z.to_nat (chunk_size p) <? length (read_lines (input p)));
    [|discriminate].
  injection Hc as _ Hc.
  exists first. split; [|exact Hkey].
  exact (firstn_skipn_head _ _ _ _ _ Hc).
Qed.

End Further.

(** ** The run from the command line on *)

(** Once the output directory is there and the input is read, the run is
    [main] on the bytes read. *)
Lemma main_io_reads (gzip_compress : bytes -> Z -> bytes)
    (abspath : text -> text) (w : world) (input_path : text) (a : args)
    (content : bytes) :
  w_dir w (a_output a) = true ->
  open_input_path w input_path = Ok content ->
  main_io gzip_compress abspath w input_path a
  = main gzip_compress abspath (with_input a content).
Proof.
  intros Hd Hi. unfold main_io, main, parse_args, ensure_dir, with_input.
  cbn [a_compress_level].
  destruct ((1 <=? a_compress_level a) && (a_compress_level a <? 10))%Z
    eqn:T; cbn [bind]; [|reflexivity].
  rewrite Hd. cbn [bind]. rewrite Hi. cbn [bind a_compress_level].
  rewrite T. reflexivity.
Qed.

(** A command line that is rejected stops the run before anything is
    opened. *)
Lemma main_io_rejects (gzip_compress : bytes -> Z -> bytes)
    (abspath : text -> text) (w : world) (input_path : text) (a : args) :
  ~ (1 <= a_compress_level a < 10)%Z ->
  main_io gzip_compress abspath w input_path a = Raise SystemExit.
Proof.
  intros Hl. unfold main_io, parse_args.
  destruct (Z.leb_spec 1 (a_compress_level a));
    destruct (Z.ltb_spec (a_compress_level a) 10); cbn [andb bind];
    try reflexivity.
  lia.
Qed.

(** An output directory that cannot be made stops the run with
    [OSError]. *)
Lemma main_io_no_directory (gzip_compress : bytes -> Z -> bytes)
    (abspath : text -> text) (w : world) (input_path : text) (a : args) :
  (1 <= a_compress_level a < 10)%Z ->
  w_dir w (a_output a) = false ->
  main_io gzip_compress abspath w input_path a = Raise OSError.
Proof.
  intros Hl Hd. unfold main_io, parse_args, ensure_dir.
  destruct (Z.leb_spec 1 (a_compress_level a)); [|lia].
  destruct (Z.ltb_spec (a_compress_level a) 10); [|lia].
  cbn [andb bind]. now rewrite Hd.
Qed.

Example missing_input_raises_OSError :
  main_io stored_compress (fun x => x) one_file (lit "missing.cdxj")
          args_chunk_0
  = Raise OSError.
Proof. reflexivity. Qed.

Example plain_file_read_as_gzip_raises_OSError :
  main_io stored_compress (fun x => x)
          (mkWorld [] (fun _ => Some two_lines) (w_gunzip one_file)
                   (fun _ => true))
          (lit "renamed.gz") args_chunk_0
  = Raise OSError.
Proof. reflexivity. Qed.

Example no_output_directory_raises_OSError :
  main_io stored_compress (fun x => x) no_directory (lit "in.cdxj")
          args_chunk_0
  = Raise OSError.
Proof. reflexivity. Qed.

Example level_10_raises_SystemExit :
  main_io stored_compress (fun x => x) one_file (lit "in.cdxj")
          (with_compress_level args_chunk_0 10)
  = Raise SystemExit.
Proof. reflexivity. Qed.

Example plain_and_gzip_input_give_the_same_run :
  main_io stored_compress (fun x => x) one_file (lit "in.cdxj") args_chunk_0
  = main stored_compress (fun x => x) args_chunk_0
  /\ main_io stored_compress (fun x => x) one_file (lit "in.cdxj.gz")
             args_chunk_0
     = main stored_compress (fun x => x) args_chunk_0.
Proof. split; vm_compute; reflexivity. Qed.

(** ** Keys of input lines *)

Lemma first_occurrence_byte (c : byte) (s : bytes) :
  In c s -> exists pre post, s = pre ++ c :: post /\ ~ In c pre.
Proof.
  induction s as [|d s IH]; [intros []|]. intros H.
  destruct (Byte.byte_eq_dec d c) as [->|Hd].
  - exists [], s. split; [reflexivity | intros []].
  - destruct H as [H|H]; [congruence|].
    destruct (IH H) as (pre & post & -> & Hpre).
    exists (d :: pre), post. split; [reflexivity|].
    intros [E|E]; [congruence | contradiction].
Qed.

(** A line whose only newline, if any, is its last byte has a key without
    newline. *)
Lemma key_without_newline (body tail : bytes) :
  ~ In NL body -> tail = [] \/ tail = [NL] ->
  ~ In LF (extract_prejson (body ++ tail)).
Proof.
  intros Hb Ht Hin.
  assert (Hd : ~ In LF (decode body))
    by (intros H; apply Hb; now apply (decode_ascii x0a)).
  destruct (in_dec Byte.byte_eq_dec x7b body) as [Hbr|Hbr].
  - destruct (first_occurrence_byte _ _ Hbr) as (pre & post & -> & Hpre).
    rewrite <- app_assoc in Hin. cbn [app] in Hin.
    rewrite (extract_prejson_before _ (decode pre) (decode (post ++ tail)))
      in Hin.
    + apply in_strip in Hin. apply (decode_ascii x0a) in Hin; [|reflexivity].
      apply Hb. apply in_or_app. now left.
    + now apply (decode_app_ascii x7b).
    + intros H. apply Hpre. now apply (decode_ascii x7b).
  - assert (Hno : ~ In LBRACE (decode (body ++ tail))).
    { intros H. apply (decode_ascii x7b) in H; [|reflexivity].
      apply in_app_or in H. destruct H as [H|H]; [contradiction|].
      destruct Ht as [->| ->]; [destruct H|].
      destruct H as [H|[]]. discriminate H. }
    rewrite (extract_prejson_whole _ Hno) in Hin.
    destruct Ht as [->| ->].
    + rewrite app_nil_r in Hin. apply in_strip in Hin. contradiction.
    + unfold NL in Hin.
      rewrite (decode_app_ascii x0a body []) in Hin by reflexivity.
      change (Byte.to_N x0a :: decode []) with [LF] in Hin.
      rewrite strip_app_space in Hin by reflexivity.
      apply in_strip in Hin. contradiction.
Qed.

(** X19. The key of a line read from the input has no newline in it:
    whatever the bytes of the input, a key does not cut an index line in
    two. *)
Theorem input_line_key_has_no_newline (s : bytes) (l : bytes) :
  In l (read_lines s) -> ~ In LF (extract_prejson l).
Proof.
  intros Hin.
  destruct (read_lines s) as [|x xs] eqn:E; [destruct Hin|].
  destruct (exists_last (l := x :: xs)) as (ls & z & Hz); [discriminate|].
  rewrite Hz in Hin, E.
  destruct (read_lines_from_shape s [] (fun H => H) ls z E) as (Hall & Hlast).
  assert (Hl : terminated l \/ unterminated l).
  { apply in_app_or in Hin. destruct Hin as [Hin|[<-|[]]]; [|exact Hlast].
    left. rewrite Forall_forall in Hall. now apply Hall. }
  destruct Hl as [(body & -> & Hb)|(_ & Hb)].
  - apply key_without_newline; auto.
  - rewrite <- (app_nil_r l). apply key_without_newline; auto.
Qed.

(** ** The order of the keys *)

Lemma stream_chunks_loop_lines (k : Z) (lines chunk : list bytes) (i : Z) :
  concat (map snd (stream_chunks_loop k chunk i lines)) = chunk ++ lines.
Proof.
  revert chunk i; induction lines as [|l lines IH]; intros chunk i;
    cbn [stream_chunks_loop].
  - destruct chunk; cbn; now rewrite ?app_nil_r.
  - destruct (Z.of_nat (length (chunk ++ [l])) >=? k)%Z; cbn [map concat snd];
      rewrite IH; now rewrite <- ?app_assoc.
Qed.

Lemma StronglySorted_app_r {A : Type} (R : A -> A -> Prop) (a b : list A) :
  StronglySorted R (a ++ b) -> StronglySorted R b.
Proof.
  induction a as [|x a IH]; cbn; [auto|].
  intros H. apply StronglySorted_inv in H. now apply IH.
Qed.

(** The first elements of lists put end to end are in the order of the
    whole. *)
Lemma StronglySorted_heads {A B : Type} (R : B -> B -> Prop) (f : A -> B)
    (cs : list (list A)) (hs : list A) :
  Forall2 (fun c h => exists r, c = h :: r) cs hs ->
  StronglySorted R (map f (concat cs)) ->
  StronglySorted R (map f hs).
Proof.
  induction 1 as [|c h cs hs (r & ->) Hrest IH]; cbn [concat map app];
    intros Hs; [constructor|].
  apply StronglySorted_inv in Hs. destruct Hs as (Hs & Hall).
  rewrite map_app in Hs, Hall.
  constructor.
  - apply IH. now apply StronglySorted_app_r in Hs.
  - apply Forall_app in Hall. destruct Hall as (_ & Hall).
    rewrite Forall_forall in *. intros y Hy.
    apply in_map_iff in Hy. destruct Hy as (x & <- & Hx).
    apply Hall. apply in_map.
    clear - Hrest Hx. induction Hrest as [|c' h' cs hs (r' & ->) _ IH'];
      [destruct Hx|].
    cbn [concat app]. destruct Hx as [<-|Hx]; [now left|].
    right. apply in_or_app. right. now apply IH'.
Qed.

Section Order.

Variable gzip_compress : bytes -> Z -> bytes.
Variable abspath : text -> text.

(** X20. The index keeps the order of the input: when the keys of the
    lines of the input are in order, for any order whatever, the keys of
    the index records are in that order too. *)
Theorem index_keys_keep_input_order (R : text -> text -> Prop)
    (p : params) :
  StronglySorted R (map extract_prejson (read_lines (input p))) ->
  exists o,
    cdxj_to_zipnum gzip_compress abspath p = Ok o
    /\ StronglySorted R (map e_pre (out_entries o)).
Proof.
  intros Hs.
  destruct (cdxj_to_zipnum_spec gzip_compress abspath p)
    as (es & st & o & Hrun & _ & Ho & He & _).
  exists o. split; [exact Ho|]. rewrite He.
  pose proof (run_loop_keys _ _ _ _ _ _ _ _ _ (wf_init _ _) Hrun) as Hkeys.
  unfold stream_chunks_from_input in Hkeys.
  pose proof (stream_chunks_loop_lines (chunk_size p) (read_lines (input p))
                [] 0%Z) as Hl.
  cbn [app] in Hl. rewrite <- Hl in Hs.
  set (chunks := stream_chunks_loop _ _ _ _) in *. clearbody chunks.
  clear - Hkeys Hs.
  assert (H : exists hs,
             Forall2 (fun c h => exists r, c = h :: r) (map snd chunks) hs
             /\ map e_pre es = map extract_prejson hs).
  { induction Hkeys as [|e c es cs (first & rest & Hc & Hk) _ IH].
    - exists []. split; constructor.
    - cbn [map concat] in Hs. rewrite map_app in Hs.
      destruct (IH (StronglySorted_app_r _ _ _ Hs)) as (hs & H2 & Hm).
      exists (first :: hs). split.
      + constructor; [now exists rest | exact H2].
      + cbn [map]. now rewrite Hk, Hm. }
  destruct H as (hs & H2 & ->).
  exact (StronglySorted_heads R extract_prejson _ _ H2 Hs).
Qed.

End Order.

(** A concrete list has none of the bytes it does not show. *)
Ltac not_in_list :=
  cbn; let H := fresh in
       intros H; repeat (destruct H as [H|H]; [discriminate H|]); exact H.

(** ** The size of the chunks *)

(** X21. With a positive chunk size [k] every chunk has at least one line
    and at most [k], and every chunk but the last has exactly [k]. *)
Theorem chunks_have_chunk_size_lines (input : bytes) (chunk_size : Z)
    (i : nat) (c : Z * list bytes) :
  (0 < chunk_size)%Z ->
  nth_error (stream_chunks_from_input input chunk_size) i = Some c ->
  (1 <= Z.of_nat (length (snd c)) <= chunk_size)%Z
  /\ (S i < length (stream_chunks_from_input input chunk_size) ->
      Z.of_nat (length (snd c)) = chunk_size).
Proof.
  intros Hk Hc.
  set (k := Z.to_nat chunk_size).
  assert (Hkk : 0 < k) by (unfold k; lia).
  assert (Hnth : forall j,
             nth_error (stream_chunks_from_input input chunk_size) j
             = if j * k <? length (read_lines input)
               then Some (Z.of_nat j,
                          firstn k (skipn (j * k) (read_lines input)))
               else None).
  { intros j. unfold stream_chunks_from_input.
    rewrite <- (Z2Nat.id chunk_size) at 1 by lia.
    rewrite stream_chunks_loop_nth by exact Hkk. reflexivity. }
  rewrite Hnth in Hc.
  destruct (Nat.ltb_spec (i * k) (length (read_lines input))) as [Hi|Hi];
    [|discriminate].
  injection Hc as <-. cbn [snd]. rewrite length_firstn, length_skipn.
  split; [unfold k in *; lia|].
  intros Hlast. apply nth_error_Some in Hlast. rewrite Hnth in Hlast.
  destruct (Nat.ltb_spec (S i * k) (length (read_lines input))) as [Hs|Hs];
    [|congruence].
  unfold k in *. lia.
Qed.

(** ** The names of the shards *)

Lemma startswith_absent (c : N) (b : text) :
  ~ In c b -> startswith b [c] = false.
Proof.
  destruct b as [|d b]; [reflexivity|]. intros H. cbn.
  destruct (N.eqb_spec c d) as [->|_]; [|reflexivity].
  exfalso. apply H. now left.
Qed.

Lemma rfind_from_last (c : N) (x : text) (i last : Z) :
  rfind_from c (x ++ [c]) i last = (i + Z.of_nat (length x))%Z.
Proof.
  revert i last; induction x as [|d x IH]; intros i last;
    cbn [app rfind_from].
  - rewrite N.eqb_refl. cbn. lia.
  - rewrite IH. cbn [length]. lia.
Qed.

Lemma basename_after_sep (x : text) : basename (x ++ [SEP]) = [].
Proof.
  unfold basename, rfind, slice_from. rewrite rfind_from_last.
  apply skipn_all2. rewrite length_app. cbn. lia.
Qed.

(** The base name of a directory joined with a name without separator is
    the name. *)
Lemma basename_path_join (a b : text) :
  ~ In SEP b -> basename (path_join a b) = b.
Proof.
  intros Hb. unfold path_join. rewrite startswith_absent by exact Hb.
  destruct a as [|a0 a'] eqn:Ea.
  - cbn [orb app]. apply (basename_app [] b Hb).
  - rewrite <- Ea. cbn [orb].
    destruct (endswith a [SEP]) eqn:E.
    + unfold endswith in E. cbn [rev app] in E.
      destruct (rev a) as [|d r] eqn:Er; [discriminate|].
      cbn [startswith] in E. apply andb_prop in E. destruct E as (E & _).
      apply N.eqb_eq in E. subst d.
      apply (f_equal (@rev _)) in Er. rewrite rev_involutive in Er.
      cbn [rev] in Er. rewrite Er, basename_app by exact Hb.
      now rewrite basename_after_sep.
    + rewrite app_assoc, basename_app by exact Hb.
      now rewrite basename_after_sep.
Qed.

(** X22. When the base name has no separator and no dot, shard [k] is
    named [<base>-NN], [NN] the two-digit form of [k + 1], in a file
    [<base>-NN.cdx.gz]; and a single shard, once renamed, is named
    [<base>] in a file [<base>.cdx.gz]. *)
Theorem shard_names_from_base (od base : text) (k : nat) :
  ~ In SEP base -> ~ In 46%N base ->
  loc_record (get_shard_path od base k false)
  = (base ++ lit "-" ++ of_nat_02d (k + 1),
     base ++ lit "-" ++ of_nat_02d (k + 1) ++ CDX_GZ)
  /\ loc_record (get_shard_path od base 0 true)
     = (base, base ++ CDX_GZ).
Proof.
  intros Hsep Hdot.
  pose proof (of_nat_02d_digits (k + 1)) as Hd.
  assert (Hcdx : ~ In SEP CDX_GZ) by not_in_list.
  assert (H1 : ~ In SEP (base ++ lit "-" ++ of_nat_02d (k + 1) ++ CDX_GZ)).
  { intros H. apply in_app_or in H. destruct H as [H|H]; [contradiction|].
    apply in_app_or in H. destruct H as [H|H].
    - destruct H as [H|[]]. discriminate H.
    - apply in_app_or in H. destruct H as [H|H]; [|contradiction].
      rewrite Forall_forall in Hd. specialize (Hd _ H). unfold SEP in Hd.
      lia. }
  assert (H2 : ~ In SEP (base ++ CDX_GZ)).
  { intros H. apply in_app_or in H. destruct H; contradiction. }
  unfold loc_record, get_shard_path.
  rewrite (basename_path_join _ _ H1), (basename_path_join _ _ H2).
  split; f_equal.
  - unfold remove_all. rewrite !app_assoc.
    change CDX_GZ with (46%N :: lit "cdx.gz") at 1.
    rewrite remove_from_keep.
    + change (remove_from (46%N :: lit "cdx.gz") 0 CDX_GZ) with (@nil N).
      apply app_nil_r.
    + apply Forall_app. split; [apply Forall_app; split|].
      * apply Forall_forall. intros ch Hin E. subst ch. contradiction.
      * constructor; [discriminate | constructor].
      * eapply Forall_impl; [|exact Hd]. cbn. intros ch ?. lia.
  - unfold remove_all.
    change CDX_GZ with (46%N :: lit "cdx.gz") at 1.
    rewrite remove_from_keep.
    + change (remove_from (46%N :: lit "cdx.gz") 0 CDX_GZ) with (@nil N).
      apply app_nil_r.
    + apply Forall_forall. intros ch Hin E. subst ch. contradiction.
Qed.

(** ** The further properties on the sample runs *)

Lemma read_lines_shape_witness :
  read_lines [x61; x0a; x62] = [[x61; x0a]] ++ [[x62]]
  /\ Forall terminated [[x61; x0a]]
  /\ (terminated [x62] \/ unterminated [x62]).
Proof.
  split; [reflexivity|].
  apply (read_lines_shape [x61; x0a; x62] [[x61; x0a]] [x62]).
  reflexivity.
Defined.

Lemma read_lines_of_concat_witness :
  (Forall terminated [[x61; x0a]; [x0a]] /\ ~ In NL [x62])
  /\ read_lines (concat [[x61; x0a]; [x0a]] ++ [x62])
     = [[x61; x0a]; [x0a]] ++ [[x62]].
Proof.
  assert (H1 : Forall terminated [[x61; x0a]; [x0a]]).
  { constructor; [exists [x61] | constructor; [exists [] | constructor]];
      (split; [reflexivity | not_in_list]). }
  assert (H2 : ~ In NL [x62]) by not_in_list.
  split; [now split|].
  apply (read_lines_of_concat [[x61; x0a]; [x0a]] [x62] H1 H2).
Defined.

Lemma chunks_are_slices_of_lines_witness :
  (0 < 3)%Z
  /\ nth_error (stream_chunks_from_input seven_lines 3) 1
     = if 1 * Z.to_nat 3 <? length (read_lines seven_lines)
       then Some (Z.of_nat 1,
                  firstn (Z.to_nat 3)
                         (skipn (1 * Z.to_nat 3) (read_lines seven_lines)))
       else None.
Proof.
  split; [reflexivity|].
  apply (chunks_are_slices_of_lines seven_lines 3 1). reflexivity.
Defined.

Lemma key_from_bytes_before_brace_witness :
  ~ In x7b before_brace
  /\ extract_prejson (before_brace ++ x7b :: [x61; x7d; x0a])
     = strip (decode before_brace).
Proof.
  assert (H : ~ In x7b before_brace) by not_in_list.
  split; [exact H|].
  apply (key_from_bytes_before_brace before_brace [x61; x7d; x0a] H).
Defined.

Lemma ascii_key_is_bytes_of_line_witness :
  (Forall (fun b => (Byte.to_N b < 128)%N) before_brace
   /\ ~ In x7b before_brace)
  /\ decode before_brace = map Byte.to_N before_brace
  /\ extract_prejson (before_brace ++ x7b :: [x61; x7d; x0a])
     = strip (map Byte.to_N before_brace).
Proof.
  assert (H1 : Forall (fun b => (Byte.to_N b < 128)%N) before_brace)
    by (repeat constructor).
  assert (H2 : ~ In x7b before_brace) by not_in_list.
  split; [now split|].
  apply (ascii_key_is_bytes_of_line before_brace [x61; x7d; x0a] H1 H2).
Defined.

Lemma single_shard_mode_one_shard_witness :
  (a_single_shard args_single = true
   /\ (1 <= a_compress_level args_single < 10)%Z)
  /\ (exists o,
        main stored_compress (fun x => x) args_single = Ok o
        /\ length (out_shards o) = 1
        /\ length (out_created_shards o) = 1
        /\ Forall (fun e => e_shard_number e = 1) (out_entries o))
  /\ forall z,
       main stored_compress (fun x => x) (with_shard_size args_single z)
       = main stored_compress (fun x => x) args_single.
Proof.
  assert (H1 : a_single_shard args_single = true) by reflexivity.
  assert (H2 : (1 <= a_compress_level args_single < 10)%Z) by (cbn; lia).
  split; [now split|].
  apply (single_shard_mode_one_shard stored_compress (fun x => x)
           args_single H1 H2).
Defined.

Lemma nonpositive_shard_size_one_chunk_per_shard_witness :
  (shard_size_mb run_rollover = Int 0 /\ (0 <= 0)%Z)
  /\ exists o,
       cdxj_to_zipnum stored_compress (fun x => x) run_rollover = Ok o
       /\ Forall (fun e => e_start_offset e = 0%Z) (out_entries o)
       /\ map e_shard_number (out_entries o)
          = seq 1 (length (out_entries o))
       /\ length (out_shards o) = S (length (out_entries o)).
Proof.
  split; [split; [reflexivity|lia]|].
  apply (nonpositive_shard_size_one_chunk_per_shard stored_compress
           (fun x => x) run_rollover 0 eq_refl).
  lia.
Defined.

Lemma index_buffer_is_bounded_witness :
  stream_chunks_from_input (input run_single) (chunk_size run_single)
  = firstn 2 seven_by_3 ++ skipn 2 seven_by_3
  /\ exists o es st,
       cdxj_to_zipnum stored_compress (fun x => x) run_single = Ok o
       /\ run_loop stored_compress (output_dir run_single)
            (base_of (fun x => x) run_single)
            (target_of (shard_size_mb run_single))
            (compress_level run_single)
            (init_state (output_dir run_single)
               (base_of (fun x => x) run_single))
            (firstn 2 seven_by_3) = Ok (es, st)
       /\ length (idx_buffer st) < idx_buffer_size
       /\ exists later, out_idx o = idxf st ++ later.
Proof.
  split; [vm_compute; reflexivity|].
  apply (index_buffer_is_bounded stored_compress (fun x => x) run_single
           (firstn 2 seven_by_3) (skipn 2 seven_by_3)).
  vm_compute; reflexivity.
Defined.

Lemma index_names_resolve_in_location_witness :
  (cdxj_to_zipnum stored_compress (fun x => x) run_rollover
   = Ok rollover_output
   /\ 2 <= length (out_created_shards rollover_output))
  /\ Forall (fun e =>
               exists path,
                 nth_error (out_created_shards rollover_output)
                           (e_shard_number e - 1) = Some path
                 /\ loc_record path = (e_shard_name e, basename path)
                 /\ forall j path',
                      nth_error (out_created_shards rollover_output) j
                      = Some path' ->
                      fst (loc_record path') = e_shard_name e ->
                      j = e_shard_number e - 1)
            (out_entries rollover_output).
Proof.
  assert (H1 : cdxj_to_zipnum stored_compress (fun x => x) run_rollover
               = Ok rollover_output) by (vm_compute; reflexivity).
  assert (H2 : 2 <= length (out_created_shards rollover_output))
    by (vm_compute; lia).
  split; [now split|].
  apply (index_names_resolve_in_location stored_compress (fun x => x)
           run_rollover rollover_output H1 H2).
Defined.

Lemma record_key_is_key_of_line_witness :
  (cdxj_to_zipnum stored_compress (fun x => x) run_single = Ok single_output
   /\ (0 < chunk_size run_single)%Z
   /\ nth_error (out_entries single_output) 1
      = Some (nth 1 (out_entries single_output) (mkEntry [] [] 0 0 0)))
  /\ exists l,
       nth_error (read_lines (input run_single))
                 (1 * Z.to_nat (chunk_size run_single)) = Some l
       /\ e_pre (nth 1 (out_entries single_output) (mkEntry [] [] 0 0 0))
          = extract_prejson l.
Proof.
  assert (H1 : cdxj_to_zipnum stored_compress (fun x => x) run_single
               = Ok single_output) by (vm_compute; reflexivity).
  assert (H2 : (0 < chunk_size run_single)%Z) by reflexivity.
  assert (H3 : nth_error (out_entries single_output) 1
               = Some (nth 1 (out_entries single_output)
                           (mkEntry [] [] 0 0 0)))
    by (vm_compute; reflexivity).
  split; [now repeat split|].
  apply (record_key_is_key_of_line stored_compress (fun x => x) run_single
           single_output 1 _ H1 H2 H3).
Defined.

Lemma input_line_key_has_no_newline_witness :
  In line_with_json (read_lines seven_lines)
  /\ ~ In LF (extract_prejson line_with_json).
Proof.
  assert (H : In line_with_json (read_lines seven_lines)) by (now left).
  split; [exact H|].
  apply (input_line_key_has_no_newline seven_lines line_with_json H).
Defined.

Lemma index_keys_keep_input_order_witness :
  StronglySorted (fun a b => text_leb a b = true)
                 (map extract_prejson (read_lines (input run_sorted)))
  /\ exists o,
       cdxj_to_zipnum stored_compress (fun x => x) run_sorted = Ok o
       /\ StronglySorted (fun a b => text_leb a b = true)
                         (map e_pre (out_entries o)).
Proof.
  assert (H : StronglySorted (fun a b => text_leb a b = true)
                (map extract_prejson (read_lines (input run_sorted))))
    by (vm_compute; repeat constructor).
  split; [exact H|].
  apply (index_keys_keep_input_order stored_compress (fun x => x)
           (fun a b => text_leb a b = true) run_sorted H).
Defined.

Lemma chunks_have_chunk_size_lines_witness :
  ((0 < 3)%Z
   /\ nth_error (stream_chunks_from_input seven_lines 3) 1
      = Some second_chunk)
  /\ (1 <= Z.of_nat (length (snd second_chunk)) <= 3)%Z
  /\ (2 < length (stream_chunks_from_input seven_lines 3) ->
      Z.of_nat (length (snd second_chunk)) = 3%Z).
Proof.
  assert (H1 : (0 < 3)%Z) by reflexivity.
  assert (H2 : nth_error (stream_chunks_from_input seven_lines 3) 1
               = Some second_chunk) by reflexivity.
  split; [now split|].
  apply (chunks_have_chunk_size_lines seven_lines 3 1 second_chunk H1 H2).
Defined.

Lemma shard_names_from_base_witness :
  (~ In SEP (lit "idx") /\ ~ In 46%N (lit "idx"))
  /\ loc_record (get_shard_path (lit "out") (lit "idx") 1 false)
     = (lit "idx" ++ lit "-" ++ of_nat_02d (1 + 1),
        lit "idx" ++ lit "-" ++ of_nat_02d (1 + 1) ++ CDX_GZ)
  /\ loc_record (get_shard_path (lit "out") (lit "idx") 0 true)
     = (lit "idx", lit "idx" ++ CDX_GZ).
Proof.
  assert (H1 : ~ In SEP (lit "idx")) by not_in_list.
  assert (H2 : ~ In 46%N (lit "idx")) by not_in_list.
  split; [now split|].
  apply (shard_names_from_base (lit "out") (lit "idx") 1 H1 H2).
Defined.
